(** * path.jerryio (3050X fork): core application store

    A shallow embedding of the parts of the editor's core that carry state:
    the modal manager, the area selection and the document loader of
    [MainApp], the format reaction, the command history and the uniform
    resampling of a path. *)

From stdpp Require Import base list gmap.
From Stdlib Require Import ZArith QArith Qminmax Reals Lra Bool String List Lia.
Import ListNotations.

Local Open Scope Z_scope.
Local Open Scope nat_scope.
Local Open Scope list_scope.

Set Implicit Arguments.

(** ** Modal manager ([Modals])

    A modal is named by a JavaScript [Symbol]; only its identity matters, so a
    symbol is a natural number.  [opening_] is [null] or a record of the
    symbol and the priority it was opened with; priorities are the integer
    levels that the callers pass, 0 when none is given. *)

Module Modals.

Definition Symbol := nat.

Record Opening : Type := mkOpening { symbol : Symbol; priority : Z }.

(** The state of a [Modals] object: its private field [opening_]. *)
Definition t := option Opening.

Definition opening (m : t) : option Symbol := option_map symbol m.

Definition get_priority (m : t) : option Z := option_map priority m.

Definition isOpen (m : t) : bool :=
  match m with Some _ => true | None => false end.

(** [open(symbol, priority)]: the new state and the returned boolean. *)
Definition open (m : t) (s : Symbol) (p : Z) : t * bool :=
  match m with
  | None => (Some (mkOpening s p), true)
  | Some o =>
      if (priority o <=? p)%Z then (Some (mkOpening s p), true)
      else (m, false)
  end.

(** [open(symbol)]: the priority defaults to 0. *)
Definition open_default (m : t) (s : Symbol) : t * bool := open m s 0%Z.

(** [close(symbol?)]: [None] is the call without an argument. *)
Definition close (m : t) (s : option Symbol) : t :=
  match s with
  | None => None
  | Some sy =>
      match m with
      | Some o => if Nat.eqb (symbol o) sy then None else m
      | None => m
      end
  end.

(** The guard of [open], as the claim words it. *)
Definition admits (m : t) (p : Z) : Prop :=
  m = None \/ exists o, m = Some o /\ (p >= priority o)%Z.

Lemma admits_dec (m : t) (p : Z) : {admits m p} + {~ admits m p}.
Proof.
  destruct m as [o|].
  - destruct (Z_le_gt_dec (priority o) p) as [Hle|Hgt].
    + left. right. exists o. split; [reflexivity | lia].
    + right. intros [Hn | [o' [Ho' Hp]]]; [discriminate |].
      injection Ho' as <-. lia.
  - left. left. reflexivity.
Defined.

Example open_on_empty : open None 7 0 = (Some (mkOpening 7 0), true).
Proof. reflexivity. Qed.

Example open_lower_priority_refused :
  open (Some (mkOpening 1 5)) 2 3 = (Some (mkOpening 1 5), false).
Proof. reflexivity. Qed.

Example open_equal_priority_replaces :
  open (Some (mkOpening 1 5)) 2 5 = (Some (mkOpening 2 5), true).
Proof. reflexivity. Qed.

Example close_other_symbol_keeps :
  close (Some (mkOpening 1 5)) (Some 2) = Some (mkOpening 1 5).
Proof. reflexivity. Qed.

Lemma open_admitted (m : t) (s : Symbol) (p : Z) :
  admits m p -> open m s p = (Some (mkOpening s p), true).
Proof.
  intros [-> | [o [-> Hp]]]; simpl; [reflexivity |].
  destruct (Z.leb_spec (priority o) p); [reflexivity | lia].
Qed.

Lemma open_refused (m : t) (s : Symbol) (p : Z) :
  ~ admits m p -> open m s p = (m, false).
Proof.
  intros Hn. destruct m as [o|]; simpl.
  - destruct (Z.leb_spec (priority o) p) as [Hle|Hlt]; [| reflexivity].
    exfalso. apply Hn. right. exists o. split; [reflexivity | lia].
  - exfalso. apply Hn. left. reflexivity.
Qed.

Lemma close_cleared_iff (m : t) (s : option Symbol) :
  isOpen m = true ->
  (close m s = None <-> s = None \/ s = opening m).
Proof.
  destruct m as [o|]; simpl; [intros _ | discriminate].
  destruct s as [sy|]; simpl.
  - destruct (Nat.eqb_spec (symbol o) sy) as [->|Hne]; split.
    + intros _. right. reflexivity.
    + reflexivity.
    + discriminate.
    + intros [H|H]; [discriminate | injection H as ->; contradiction].
  - split; [intros _; left |]; reflexivity.
Qed.

(** C10. [open(symbol, priority)] returns true and makes [symbol] the open
    modal, with that priority, exactly when no modal is open or [priority] is
    at least the priority of the open one; otherwise it returns false and
    the open modal and its priority stay as they were.  [close(symbol)]
    clears the open modal when it is called without an argument or with the
    symbol that is open, and only then: in every other case the state is
    unchanged. *)
Theorem modals_open_close (m : t) (s : Symbol) (p : Z) (c : option Symbol) :
  (snd (open m s p) = true <-> admits m p) /\
  (admits m p ->
     open m s p = (Some (mkOpening s p), true) /\
     opening (fst (open m s p)) = Some s /\
     get_priority (fst (open m s p)) = Some p) /\
  (~ admits m p ->
     open m s p = (m, false) /\
     opening (fst (open m s p)) = opening m /\
     get_priority (fst (open m s p)) = get_priority m) /\
  ((c = None \/ (isOpen m = true /\ c = opening m)) -> close m c = None) /\
  (~ (c = None \/ c = opening m) -> close m c = m).
Proof.
  split; [| split; [| split; [| split]]].
  - destruct (admits_dec m p) as [Ha|Hn].
    + rewrite (open_admitted s Ha). simpl. tauto.
    + rewrite (open_refused s Hn). simpl. split; [discriminate | tauto].
  - intros Ha. rewrite (open_admitted s Ha). simpl. auto.
  - intros Hn. rewrite (open_refused s Hn). simpl. auto.
  - intros [-> | [Ho ->]]; [reflexivity |].
    apply close_cleared_iff; auto.
  - intros Hn. destruct c as [sy|]; [| exfalso; apply Hn; left; reflexivity].
    destruct m as [o|]; simpl; [| reflexivity].
    destruct (Nat.eqb_spec (symbol o) sy) as [<-|Hne]; [| reflexivity].
    exfalso. apply Hn. right. reflexivity.
Qed.

End Modals.

(** ** Area selection ([MainApp.startAreaSelection], [updateAreaSelection])

    Coordinates are JavaScript numbers; they are taken as rationals.  A uid is
    a string.  [Path.controls] is a getter of core/Path that lists the
    controls of a path in segment order; here it is a field of the path. *)

Module Selection.

Record Vector : Type := mkVector { vx : Q; vy : Q }.

Record Control : Type := mkControl {
  uid : string;
  cx : Q;
  cy : Q;
  visible : bool;
  lock : bool
}.

Record Path : Type := mkPath {
  puid : string;
  pvisible : bool;
  plock : bool;
  controls : list Control
}.

(** The fields of [MainApp] that the selection reads and writes. *)
Record App : Type := mkApp {
  paths : list Path;
  selected : list string;
  selectedBefore : list string
}.

(** [Array.prototype.includes] on an array of strings. *)
Definition includes (l : list string) (u : string) : bool :=
  existsb (String.eqb u) l.

(** [Array.from(new Set(l))]: a [Set] keeps insertion order, so every uid
    stays at its first occurrence. *)
Fixpoint dedup_from (seen l : list string) : list string :=
  match l with
  | [] => []
  | u :: r =>
      if includes seen u then dedup_from seen r
      else u :: dedup_from (u :: seen) r
  end.

Definition dedup (l : list string) : list string := dedup_from [] l.

(** Modelled from the spec: [Control.isWithinArea] of core/Path, the
    containment test of a control in the rectangle whose lower corner is
    [from] and upper corner is [to], borders included. *)
Definition isWithinArea (c : Control) (from to : Vector) : bool :=
  Qle_bool (vx from) (cx c) && Qle_bool (cx c) (vx to) &&
  Qle_bool (vy from) (cy c) && Qle_bool (cy c) (vy to).

Definition selectablePaths (a : App) : list Path :=
  filter (fun p => pvisible p && negb (plock p)) (paths a).

Definition selectableControls (a : App) : list Control :=
  flat_map (fun p => filter (fun c => visible c && negb (lock c)) (controls p))
           (selectablePaths a).

Definition startAreaSelection (a : App) : App :=
  {| paths := paths a; selected := selected a; selectedBefore := selected a |}.

Definition fixedFrom (from to : Vector) : Vector :=
  mkVector (Qmin (vx from) (vx to)) (Qmin (vy from) (vy to)).

Definition fixedTo (from to : Vector) : Vector :=
  mkVector (Qmax (vx from) (vx to)) (Qmax (vy from) (vy to)).

Definition highlighted (a : App) (from to : Vector) : list string :=
  map uid (filter (fun c => isWithinArea c (fixedFrom from to) (fixedTo from to))
                  (selectableControls a)).

Definition updateAreaSelection (a : App) (from to : Vector) : App :=
  let hl := highlighted a from to in
  let sel :=
    filter (fun u => negb (includes (selectedBefore a) u && includes hl u))
           (selectedBefore a ++ hl) in
  {| paths := paths a; selected := dedup sel; selectedBefore := selectedBefore a |}.

(** What the claim calls a control that can be picked by the rectangle. *)
Definition in_rectangle (c : Control) (from to : Vector) : Prop :=
  (Qmin (vx from) (vx to) <= cx c)%Q /\ (cx c <= Qmax (vx from) (vx to))%Q /\
  (Qmin (vy from) (vy to) <= cy c)%Q /\ (cy c <= Qmax (vy from) (vy to))%Q.

Definition pickable (a : App) (from to : Vector) (u : string) : Prop :=
  exists p c,
    In p (paths a) /\ pvisible p = true /\ plock p = false /\
    In c (controls p) /\ visible c = true /\ lock c = false /\
    in_rectangle c from to /\ uid c = u.

Example dedup_keeps_first_occurrence :
  dedup ["a"; "b"; "a"; "c"; "b"]%string = ["a"; "b"; "c"]%string.
Proof. reflexivity. Qed.

(** One visible path with three controls, the third one locked; "c1" was
    selected before the drag, and the rectangle covers "c1" and "c2". *)
Example area_selection_toggles :
  let p := mkPath "p" true false
             [mkControl "c1" 1 1 true false; mkControl "c2" 2 2 true false;
              mkControl "c3" 2 1 true true] in
  let a := mkApp [p] ["c1"; "p"]%string [] in
  selected (updateAreaSelection (startAreaSelection a) (mkVector 3 3) (mkVector 0 0))
  = ["p"; "c2"]%string.
Proof. reflexivity. Qed.

Lemma includes_In (l : list string) (u : string) :
  includes l u = true <-> In u l.
Proof.
  unfold includes. rewrite existsb_exists. split.
  - intros [v [Hv He]]. apply String.eqb_eq in He. now subst.
  - intros H. exists u. split; [assumption | apply String.eqb_refl].
Qed.

Lemma includes_false (l : list string) (u : string) :
  includes l u = false <-> ~ In u l.
Proof.
  rewrite <- includes_In. destruct (includes l u); split; intros H;
    try reflexivity; try discriminate; try (intros H'; discriminate).
  exfalso. now apply H.
Qed.

Lemma dedup_from_In (l seen : list string) (u : string) :
  In u (dedup_from seen l) <-> In u l /\ ~ In u seen.
Proof.
  revert seen. induction l as [|v r IH]; intros seen; simpl.
  - tauto.
  - destruct (includes seen v) eqn:E.
    + apply includes_In in E. rewrite IH. split.
      * intros [H1 H2]. auto.
      * intros [[->|H1] H2]; [contradiction | auto].
    + apply includes_false in E. simpl. rewrite IH. simpl. split.
      * intros [->|[H1 H2]]; [auto |]. split; [auto | intros H; apply H2; auto].
      * intros [[->|H1] H2]; [auto |].
        destruct (string_dec v u) as [->|Hne]; [auto |].
        right. split; [assumption |]. intros [H|H]; auto.
Qed.

Lemma dedup_from_NoDup (l seen : list string) : NoDup (dedup_from seen l).
Proof.
  revert seen. induction l as [|v r IH]; intros seen; simpl.
  - constructor.
  - destruct (includes seen v); [apply IH |].
    constructor; [| apply IH].
    rewrite dedup_from_In. intros [_ H]. apply H. now left.
Qed.

Lemma dedup_In (l : list string) (u : string) : In u (dedup l) <-> In u l.
Proof. unfold dedup. rewrite dedup_from_In. simpl. tauto. Qed.

Lemma isWithinArea_fixed (c : Control) (from to : Vector) :
  isWithinArea c (fixedFrom from to) (fixedTo from to) = true <->
  in_rectangle c from to.
Proof.
  unfold isWithinArea, in_rectangle, fixedFrom, fixedTo. simpl.
  rewrite !andb_true_iff, !Qle_bool_iff. tauto.
Qed.

Lemma selectableControls_In (a : App) (c : Control) :
  In c (selectableControls a) <->
  exists p, In p (paths a) /\ pvisible p = true /\ plock p = false /\
            In c (controls p) /\ visible c = true /\ lock c = false.
Proof.
  unfold selectableControls, selectablePaths. rewrite in_flat_map. split.
  - intros [p [Hp Hc]]. apply filter_In in Hp. apply filter_In in Hc.
    destruct Hp as [Hp Hv], Hc as [Hc Hv'].
    apply andb_true_iff in Hv, Hv'. rewrite negb_true_iff in Hv, Hv'.
    exists p. tauto.
  - intros [p [Hp [Hv [Hl [Hc [Hv' Hl']]]]]]. exists p.
    rewrite !filter_In, Hv, Hl, Hv', Hl'. auto.
Qed.

Lemma highlighted_pickable (a : App) (from to : Vector) (u : string) :
  In u (highlighted a from to) <-> pickable a from to u.
Proof.
  unfold highlighted, pickable. rewrite in_map_iff. split.
  - intros [c [Hu Hc]]. apply filter_In in Hc. destruct Hc as [Hc Hw].
    apply isWithinArea_fixed in Hw. apply selectableControls_In in Hc.
    destruct Hc as [p Hp]. exists p, c. tauto.
  - intros [p [c [Hp [Hv [Hl [Hc [Hv' [Hl' [Hr Hu]]]]]]]]]. exists c.
    split; [assumption |]. apply filter_In. split.
    + apply selectableControls_In. exists p. tauto.
    + now apply isWithinArea_fixed.
Qed.

Lemma in_rectangle_swap (c : Control) (from to : Vector) :
  in_rectangle c from to <-> in_rectangle c to from.
Proof.
  unfold in_rectangle.
  rewrite (Q.min_comm (vx from)), (Q.max_comm (vx from)),
          (Q.min_comm (vy from)), (Q.max_comm (vy from)).
  tauto.
Qed.

Lemma highlighted_swap (a : App) (from to : Vector) :
  highlighted a from to = highlighted a to from.
Proof.
  unfold highlighted. f_equal. apply filter_ext. intros c.
  apply eq_true_iff_eq. rewrite !isWithinArea_fixed. apply in_rectangle_swap.
Qed.

(** C8. After [startAreaSelection()] and [updateAreaSelection(from, to)] the
    selected uids have no duplicates and are those that are either in the
    selection saved at the start or are the uid of a visible, unlocked
    control of a visible, unlocked path inside the rectangle spanned by
    [from] and [to], but not both; and passing the two corners in the other
    order gives the same result. *)
Theorem area_selection_symmetric_difference (a : App) (from to : Vector) :
  let a' := updateAreaSelection (startAreaSelection a) from to in
  NoDup (selected a') /\
  (forall u,
     In u (selected a') <->
     (In u (selected a) /\ ~ pickable a from to u) \/
     (pickable a from to u /\ ~ In u (selected a))) /\
  updateAreaSelection (startAreaSelection a) to from = a'.
Proof.
  simpl. split; [| split].
  - apply dedup_from_NoDup.
  - intros u. unfold updateAreaSelection. simpl.
    rewrite dedup_In, filter_In, in_app_iff, negb_true_iff, andb_false_iff.
    rewrite !includes_false.
    change (highlighted (startAreaSelection a) from to)
      with (highlighted a from to).
    rewrite highlighted_pickable. tauto.
  - unfold updateAreaSelection.
    now rewrite (highlighted_swap (startAreaSelection a) to from).
Qed.

End Selection.

(** ** Command history ([CommandHistory] of core/Command)

    core/Command is not among the sources; [MainApp] only holds a
    [CommandHistory] and calls [clearHistory] and [isModified] on it.  The
    history below follows section 4.4 of the specification. *)

(** Modelled from the spec: the [Command] interface, "polymorphic over
    [apply()], [inverse()]" (section 3).  A command acts on the model state
    [State]; the claims speak of commands that executed successfully, so both
    effects are total here. *)
Class CommandOps (C State : Type) : Type := {
  apply : C -> State -> State;
  inverse : C -> State -> State
}.

Module History.

(** [Array.prototype.pop]: the array without its last element, and that
    element; [None] on the empty array. *)
Definition pop {A : Type} (l : list A) : option (list A * A) :=
  match rev l with
  | [] => None
  | x :: r => Some (rev r, x)
  end.

(** [Array.prototype.push]. *)
Definition push {A : Type} (l : list A) (x : A) : list A := l ++ [x].

(** Modelled from the spec: the three fields of the [CommandHistory] of
    core/Command, "ordered log [done], ordered log [undone], a saved-marker
    position".  [done] runs from the oldest to the newest command.
    [savedMarker] is the position in [done] that matches the last save, or
    [None] once that position became unreachable. *)
Record t (C : Type) : Type := mk {
  done : list C;
  undone : list C;
  savedMarker : option nat
}.

Arguments mk {C} _ _ _.

Section Operations.

Context {C State : Type} `{CommandOps C State}.

(** The fixed maximum size of [done]. *)
Variable max_size : nat.

(** The current position in the history: the length of [done]. *)
Definition position (h : t C) : nat := length (done h).

Definition undoCount (h : t C) : nat := length (done h).

Definition redoCount (h : t C) : nat := length (undone h).

(** Modelled from the spec: truncation of [done] to [max_size] entries, the
    oldest dropped. *)
Definition truncate (l : list C) : list C := skipn (length l - max_size) l.

(** Modelled from the spec: the saved marker after [k] entries were dropped
    from the front of [done]; the marker is lost when its entry is among
    them. *)
Definition shift_marker (k : nat) (m : option nat) : option nat :=
  match m with
  | Some p => if p <? k then None else Some (p - k)
  | None => None
  end.

(** Modelled from the spec: [execute(description, command)] "run apply
    effect, append to [done], clear [undone] entirely, then truncate [done]
    to a fixed maximum size (oldest dropped)".  The optional merge of adjacent
    commands of one kind on one entity is not performed. *)
Definition execute (c : C) (st : State * t C) : State * t C :=
  let (s, h) := st in
  let appended := push (done h) c in
  (apply c s,
   mk (truncate appended) [] (shift_marker (length appended - max_size) (savedMarker h))).

(** Modelled from the spec: [undo()] "no-op if [done] empty; else pop last
    from [done], run its inverse, push to [undone]". *)
Definition undo (st : State * t C) : State * t C :=
  let (s, h) := st in
  match pop (done h) with
  | None => st
  | Some (rest, c) => (inverse c s, mk rest (push (undone h) c) (savedMarker h))
  end.

(** Modelled from the spec: [redo()] "no-op if [undone] empty; else pop last
    from [undone], run its apply, push to [done]". *)
Definition redo (st : State * t C) : State * t C :=
  let (s, h) := st in
  match pop (undone h) with
  | None => st
  | Some (rest, c) => (apply c s, mk (push (done h) c) rest (savedMarker h))
  end.

(** Modelled from the spec: [isModified()] "true unless current [done]
    length/position equals [savedMarker]". *)
Definition isModified (h : t C) : bool :=
  match savedMarker h with
  | Some p => negb (p =? position h)
  | None => true
  end.

(** Modelled from the spec: [clearHistory()] "empties [done]/[undone], resets
    [savedMarker] to nothing modified". *)
Definition clearHistory (h : t C) : t C := mk [] [] (Some 0).




(** Modelled from the spec: "for any executed Command C, [execute(C);
    undo()] restores every field C touched to its exact prior value", for
    the commands [cmds] executed one after the other from the state [s]: the
    inverse of each takes back its effect on the state it was executed in.
    Nothing is asked of a command on a state it is not executed in, so a
    command that carries the value it replaced qualifies wherever that value
    is the current one. *)
Fixpoint reversible_from (s : State) (cmds : list C) : Prop :=
  match cmds with
  | [] => True
  | c :: rest => inverse c (apply c s) = s /\ reversible_from (apply c s) rest
  end.

End Operations.

(** A small model to run the history on: two counters, and a command kind
    for each, so that the two kinds act on different entities. *)
Inductive Bump : Type := BumpX | BumpY.

#[export] Instance Bump_ops : CommandOps Bump (nat * nat) := {
  apply c s := match c with
               | BumpX => (S (fst s), snd s)
               | BumpY => (fst s, S (snd s))
               end;
  inverse c s := match c with
                 | BumpX => (Nat.pred (fst s), snd s)
                 | BumpY => (fst s, Nat.pred (snd s))
                 end
}.


(** A property update as the history records it: the field, the value it
    replaced and the value it wrote.  Its inverse writes the replaced value
    back, so it takes back the update on the states where the field held
    that value, and on no other. *)
Inductive Update : Type :=
  | SetX (replaced written : nat)
  | SetY (replaced written : nat).

#[export] Instance Update_ops : CommandOps Update (nat * nat) := {
  apply c s := match c with
               | SetX _ v => (v, snd s)
               | SetY _ v => (fst s, v)
               end;
  inverse c s := match c with
                 | SetX v _ => (v, snd s)
                 | SetY v _ => (fst s, v)
                 end
}.

(** The update is taken back where it replaced the value it carries; it is
    not elsewhere. *)
Example update_reversible_where_executed :
  reversible_from (0, 0) [SetX 0 5; SetY 0 7; SetX 5 9] /\
  inverse (SetX 0 5) (apply (SetX 0 5) (3, 0)) <> (3, 0).
Proof. split; [repeat split | discriminate]. Qed.

Example execute_drops_oldest :
  execute 2 BumpX (execute 2 BumpY (execute 2 BumpX ((0, 0), mk [] [] (Some 0))))
  = ((2, 1), mk [BumpY; BumpX] [] None).
Proof. reflexivity. Qed.

Example undo_then_redo :
  redo (undo (execute 2 BumpX ((0, 0), mk [] [] (Some 0))))
  = ((1, 0), mk [BumpX] [] (Some 0)).
Proof. reflexivity. Qed.

Section Facts.

Context {C State : Type} `{CommandOps C State}.

Variable max_size : nat.

Lemma pop_nil : pop (@nil C) = None.
Proof. reflexivity. Qed.

Lemma pop_push (l : list C) (c : C) : pop (push l c) = Some (l, c).
Proof.
  unfold pop, push. rewrite rev_app_distr. simpl. now rewrite rev_involutive.
Qed.







(** C6. [undo()] with an empty [done] and [redo()] with an empty [undone]
    return the model and the history as they were; when [done] ends with the
    command [c], [undo()] removes [c] from the end of [done], runs the
    inverse of [c] on the model and pushes [c] onto [undone]. *)
Theorem undo_redo_on_empty_and_undo_pops (s : State) (h : t C) :
  (done h = [] -> undo (s, h) = (s, h)) /\
  (undone h = [] -> redo (s, h) = (s, h)) /\
  (forall rest c, done h = rest ++ [c] ->
     undo (s, h) = (inverse c s, mk rest (undone h ++ [c]) (savedMarker h))).
Proof.
  split; [| split].
  - intros E. unfold undo. now rewrite E.
  - intros E. unfold redo. now rewrite E.
  - intros rest c E. unfold undo. rewrite E.
    change (rest ++ [c]) with (push rest c). now rewrite pop_push.
Qed.


End Facts.

Lemma undo_redo_on_empty_and_undo_pops_witness :
  undo ((3, 4), mk (@nil Bump) [BumpX] (Some 0)) = ((3, 4), mk [] [BumpX] (Some 0)) /\
  redo ((3, 4), mk [BumpX] (@nil Bump) (Some 0)) = ((3, 4), mk [BumpX] [] (Some 0)) /\
  undo ((3, 4), mk [BumpX; BumpY] [] (Some 0)) = ((3, 3), mk [BumpX] [BumpY] (Some 0)).
Proof.
  split; [| split].
  - exact (proj1 (undo_redo_on_empty_and_undo_pops (3, 4)
                    (mk (@nil Bump) [BumpX] (Some 0))) eq_refl).
  - exact (proj1 (proj2 (undo_redo_on_empty_and_undo_pops (3, 4)
                           (mk [BumpX] (@nil Bump) (Some 0)))) eq_refl).
  - exact (proj2 (proj2 (undo_redo_on_empty_and_undo_pops (3, 4)
                           (mk [BumpX; BumpY] [] (Some 0)))) [BumpX] BumpY eq_refl).
Defined.



End History.

(** ** The application store ([MainApp])

    Control points are JavaScript objects: a segment holds references to
    them, and two segments share an end point when they hold the same
    reference.  A reference is an address into a store of controls; that two
    references denote the very same object means that the addresses are
    equal.  Numbers are rationals; a unit of length is the number of
    millimetres it stands for (the [uol] field is validated as a number in
    (0, 1000]). *)

Module MainApp.

Definition addr := nat.

(** A JavaScript value that is a control object or [undefined]. *)
Definition ref := option addr.

Record Vector : Type := mkVector { vx : Q; vy : Q }.

(** The contents of a control object. *)
Record Control : Type := mkControl {
  cuid : string;
  cx : Q;
  cy : Q
}.

(** [Segment]: its [controls] array. *)
Record Segment : Type := mkSegment { controls : list ref }.

(** Modelled from the spec: the accessors [first] and [last] of [Segment] in
    core/Path, "ordered list of 2 control points (linear) or 4 (cubic
    Bezier: first, handle1, handle2, last)": [first] reads and writes
    [controls[0]], [last] reads [controls[controls.length - 1]]; reading
    outside the array gives [undefined], and writing index 0 of an empty
    array extends it. *)
Definition first (s : Segment) : ref :=
  match controls s with
  | [] => None
  | r :: _ => r
  end.

Definition last (s : Segment) : ref := List.last (controls s) None.

Definition set_first (v : ref) (s : Segment) : Segment :=
  match controls s with
  | [] => mkSegment [v]
  | _ :: rest => mkSegment (v :: rest)
  end.

(** [{ value, label }], an object: [oid] is its identity, which is what
    [===] compares. *)
Record NumberWithLabel : Type := mkNumberWithLabel {
  oid : nat;
  value : Q;
  label : string
}.

Definition same_object (a b : NumberWithLabel) : bool := oid a =? oid b.

Record EditableNumberRange : Type := mkRange {
  minLimit : NumberWithLabel;
  maxLimit : NumberWithLabel;
  step : Q;
  from : Q;
  to : Q
}.

Inductive BentRateApplicationDirection : Type := HighToLow | LowToHigh.

Record PathConfig : Type := mkPathConfig {
  speedLimit : EditableNumberRange;
  bentRateApplicableRange : EditableNumberRange;
  bentRateApplicationDirection : BentRateApplicationDirection
}.

Record Path : Type := mkPath {
  uid : string;
  name : string;
  segments : list Segment;
  pc : PathConfig;
  visible : bool;
  lock : bool
}.

Definition UnitOfLength := Q.

Record GeneralConfig : Type := mkGeneralConfig {
  robotWidth : Q;
  robotHeight : Q;
  robotIsHolonomic : bool;
  showRobot : bool;
  uol : UnitOfLength;
  pointDensity : Q;
  controlMagnetDistance : Q
}.

(** A format object: [isInit], the general config it owns
    ([getGeneralConfig()]), and the path config that [buildPathConfig()]
    hands out. *)
Record Format : Type := mkFormat {
  formatName : string;
  isInit : bool;
  gc : GeneralConfig;
  buildPathConfig : PathConfig
}.

(** [format.init()], "Suspend format reaction": nothing when the format is
    initialised already, else [isInit] is set, as the format of the sources
    does it. *)
Definition init (f : Format) : Format :=
  if isInit f then f
  else mkFormat (formatName f) true (gc f) (buildPathConfig f).

Record FieldDisplay : Type := mkFieldDisplay { offset : Vector; scale : Q }.

(** [PathFileData]: [{ gc, paths }]. *)
Record PathFileData : Type := mkPathFileData {
  pfd_gc : GeneralConfig;
  pfd_paths : list Path
}.

Section Store.

(** The type of the entries of the command history. *)
Variable Cmd : Type.

(** [DOMPurify.sanitize]. *)
Variable sanitize : string -> string.

(** [Format.createNewInstance()]. *)
Variable createNewInstance : Format -> Format.

(** [convertGeneralConfigUOL(gc, fromUOL)] and
    [convertPathConfigPointDensity(pc, fromDensity, toDensity)] of
    format/Config, which is not among the sources: each updates its first
    argument in place. *)
Variable convertGeneralConfigUOL : GeneralConfig -> UnitOfLength -> GeneralConfig.
Variable convertPathConfigPointDensity : PathConfig -> Q -> Q -> PathConfig.

(** The fields of a [MainApp].  [lastInterestedPath] is kept by the uid of
    the path; [magnet] is [None] for the vector (Infinity, Infinity);
    [robotVisible] is [robot.position.visible]. *)
Record App : Type := mkApp {
  format : Format;
  usingUOL : UnitOfLength;
  paths : list Path;
  selected : list string;
  lastInterestedPath : option string;
  expanded : list string;
  magnet : option Vector;
  history : History.t Cmd;
  robotVisible : bool;
  fieldDisplay : FieldDisplay
}.

Definition resetUserControl (a : App) : App :=
  mkApp (format a) (usingUOL a) (paths a) [] None [] None
        (history a) false (fieldDisplay a).

Definition resetFieldDisplay (a : App) : App :=
  mkApp (format a) (usingUOL a) (paths a) (selected a) (lastInterestedPath a)
        (expanded a) (magnet a) (history a) (robotVisible a)
        (mkFieldDisplay (mkVector 0 0) 1).

Definition clearHistory (a : App) : App :=
  mkApp (format a) (usingUOL a) (paths a) (selected a) (lastInterestedPath a)
        (expanded a) (magnet a) (History.clearHistory (history a))
        (robotVisible a) (fieldDisplay a).

(** One turn of the linking loop of [setPathFileData]:
    [path.segments[j].first = path.segments[j - 1].last]. *)
Definition link_step (segs : list Segment) (j : nat) : list Segment :=
  match segs !! (j - 1), segs !! j with
  | Some prev, Some cur => <[j := set_first (last prev) cur]> segs
  | _, _ => segs
  end.

(** [for (let j = 1; j < path.segments.length; j++) ...]. *)
Definition link_segments (segs : list Segment) : list Segment :=
  fold_left link_step (seq 1 (length segs - 1)) segs.

(** The body of the loop over [pfd.paths], without the push onto
    [expanded]: the name is sanitized and the segments are linked. *)
Definition load_path (p : Path) : Path :=
  let temp := sanitize (name p) in
  mkPath (uid p) (if String.eqb temp "" then "Path"%string else temp)
         (link_segments (segments p)) (pc p) (visible p) (lock p).

Definition setPathFileData (a : App) (fmt : Format) (pfd : PathFileData) : App :=
  let loaded := map load_path (pfd_paths pfd) in
  let a1 := mkApp fmt (uol (gc fmt)) loaded (selected a) (lastInterestedPath a)
                  (map uid loaded) (magnet a) (history a) (robotVisible a)
                  (fieldDisplay a) in
  clearHistory (resetFieldDisplay (resetUserControl a1)).

Definition newPathFile (a : App) : App :=
  let newFormat := init (createNewInstance (format a)) in
  let a1 := mkApp newFormat (uol (gc newFormat)) [] (selected a)
                  (lastInterestedPath a) (expanded a) (magnet a) (history a)
                  (robotVisible a) (fieldDisplay a) in
  clearHistory (resetFieldDisplay (resetUserControl a1)).

(** The general config of the new format after the first half of the format
    reaction: [this.gc] is the config of [this.format], which is the new
    format when the reaction runs. *)
Definition switched_gc (newFormat oldFormat : Format) : GeneralConfig :=
  let oldGC := gc oldFormat in
  let g := gc newFormat in
  let keepPointDensity := pointDensity g in
  let g1 := mkGeneralConfig (robotWidth oldGC) (robotHeight oldGC)
              (robotIsHolonomic g) (showRobot g) (uol g) (pointDensity g)
              (controlMagnetDistance g) in
  let g2 := convertGeneralConfigUOL g1 (uol oldGC) in
  mkGeneralConfig (robotWidth g2) (robotHeight g2) (robotIsHolonomic g2)
    (showRobot g2) (uol g2) keepPointDensity (controlMagnetDistance g2).

(** The path config that the loop of the format reaction builds for [path],
    before [convertPathConfigPointDensity] is called on it. *)
Definition switched_pc (newFormat : Format) (path : Path) : PathConfig :=
  let newPC := buildPathConfig newFormat in
  let kept :=
    if same_object (minLimit (speedLimit newPC)) (minLimit (speedLimit (pc path)))
       && same_object (maxLimit (speedLimit newPC)) (maxLimit (speedLimit (pc path)))
    then speedLimit (pc path) else speedLimit newPC in
  mkPathConfig kept (bentRateApplicableRange (pc path))
               (bentRateApplicationDirection newPC).

(** The reaction on [this.format], called with the new and the old format;
    the new format is [this.format]. *)
Definition formatReaction (a : App) (oldFormat : Format) : App :=
  let newFormat := format a in
  if isInit newFormat then a
  else
    let newFormat1 := init newFormat in
    let oldGC := gc oldFormat in
    let g := switched_gc newFormat1 oldFormat in
    let paths1 :=
      map (fun path =>
             mkPath (uid path) (name path) (segments path)
               (convertPathConfigPointDensity (switched_pc newFormat1 path)
                  (pointDensity oldGC) (pointDensity g))
               (visible path) (lock path))
          (paths a) in
    let a1 := mkApp (mkFormat (formatName newFormat1) (isInit newFormat1) g
                       (buildPathConfig newFormat1))
                    (usingUOL a) paths1 (selected a) (lastInterestedPath a)
                    (expanded a) (magnet a) (history a) (robotVisible a)
                    (fieldDisplay a) in
    clearHistory (resetUserControl a1).

(** [changeFormat] of the configuration panel: the user picks [newFormat];
    [newPaths] is what [newFormat.convertFromFormat(oldFormat, app.paths)]
    returned.  The two assignments are one action, after which the reaction
    runs. *)
Definition changeFormat (a : App) (newFormat : Format) (newPaths : list Path) : App :=
  let oldFormat := format a in
  let a1 := mkApp newFormat (usingUOL a) newPaths (selected a)
                  (lastInterestedPath a) (expanded a) (magnet a) (history a)
                  (robotVisible a) (fieldDisplay a) in
  formatReaction a1 oldFormat.

(** The shared end point invariant of a path: every segment starts with the
    object its predecessor ends with. *)
Definition linked (segs : list Segment) : Prop :=
  forall i s1 s2, segs !! i = Some s1 -> segs !! (S i) = Some s2 ->
                  first s2 = last s1.

End Store.

(** The coordinates of the control that a reference denotes in a store of
    controls. *)
Definition coordinates (store : gmap addr Control) (r : ref) : option (Q * Q) :=
  match r with
  | Some a => option_map (fun c => (cx c, cy c)) (store !! a)
  | None => None
  end.

Definition same_coordinates (store : gmap addr Control) (r1 r2 : ref) : Prop :=
  match coordinates store r1, coordinates store r2 with
  | Some (x1, y1), Some (x2, y2) => (x1 == x2)%Q /\ (y1 == y2)%Q
  | _, _ => False
  end.

(** Linking by coordinate and order is possible: every segment starts where
    its predecessor ends. *)
Definition coordinate_linkable (store : gmap addr Control) (segs : list Segment) : Prop :=
  forall i s1 s2, segs !! i = Some s1 -> segs !! S i = Some s2 ->
                  same_coordinates store (last s1) (first s2).

(** A history is in the state that [clearHistory()] leaves. *)
Definition cleared {C : Type} (h : History.t C) : Prop :=
  History.done h = [] /\ History.undone h = [] /\
  History.savedMarker h = Some 0 /\ History.isModified h = false.

(** The first [k] turns of the linking loop. *)
Definition link_upto (k : nat) (segs : list Segment) : list Segment :=
  fold_left link_step (seq 1 k) segs.

(** A file with one path of two segments that do not meet: the first ends
    at (1, 1), the second starts at (5, 5). *)
Definition gap_store : gmap addr Control :=
  <[0 := mkControl "a" 0 0]> (<[1 := mkControl "b" 1 1]>
  (<[2 := mkControl "c" 5 5]> (<[3 := mkControl "d" 6 6]> ∅))).

Definition plain_range : EditableNumberRange :=
  mkRange (mkNumberWithLabel 0 0 "0") (mkNumberWithLabel 1 600 "600") 1 40 120.

Definition plain_pc : PathConfig := mkPathConfig plain_range plain_range HighToLow.

Definition gap_path : Path :=
  mkPath "p1" "Path" [mkSegment [Some 0; Some 1]; mkSegment [Some 2; Some 3]]
         plain_pc true false.

Definition plain_gc : GeneralConfig := mkGeneralConfig 30 30 false false 10%Q 2 5.

Definition plain_format : Format := mkFormat "fmt" true plain_gc plain_pc.

Definition plain_app : App unit :=
  mkApp plain_format 10%Q [] ["p0"%string] None [] None
        (History.mk [tt] [tt; tt] (Some 1)) true
        (mkFieldDisplay (mkVector 3 4) 2).

(** A second format, not initialised, whose config uses inches and its own
    point density. *)
Definition inch_gc : GeneralConfig :=
  mkGeneralConfig 12 12 false false (254 # 10) (3 # 4) 2.

Definition inch_format : Format := mkFormat "inch" false inch_gc plain_pc.

Example link_two_segments :
  link_segments [mkSegment [Some 0; Some 1]; mkSegment [Some 2; Some 3];
                 mkSegment [Some 4; Some 5; Some 6; Some 7]]
  = [mkSegment [Some 0; Some 1]; mkSegment [Some 1; Some 3];
     mkSegment [Some 3; Some 5; Some 6; Some 7]].
Proof. reflexivity. Qed.

Example link_short_segments :
  link_segments [mkSegment [Some 0; Some 1]; mkSegment [Some 2]; mkSegment []]
  = [mkSegment [Some 0; Some 1]; mkSegment [Some 1]; mkSegment [Some 1]].
Proof. reflexivity. Qed.

Section Linking.

Implicit Types (segs res : list Segment) (s : Segment) (v : ref).

Lemma first_set_first v s : first (set_first v s) = v.
Proof. unfold first, set_first. destruct (controls s); reflexivity. Qed.

Lemma last_set_first v s :
  2 <= length (controls s) -> last (set_first v s) = last s.
Proof.
  unfold last, set_first. destruct (controls s) as [|a [|b l]]; simpl; try lia.
  reflexivity.
Qed.

Lemma length_set_first v s :
  2 <= length (controls s) ->
  length (controls (set_first v s)) = length (controls s).
Proof.
  unfold set_first. destruct (controls s) as [|a l]; simpl; [lia | reflexivity].
Qed.

Lemma link_upto_S k segs :
  link_upto (S k) segs = link_step (link_upto k segs) (S k).
Proof. unfold link_upto. now rewrite seq_S, fold_left_app. Qed.

Lemma link_step_length segs j : length (link_step segs j) = length segs.
Proof.
  unfold link_step. destruct (segs !! (j - 1)); [| reflexivity].
  destruct (segs !! j); [apply length_insert | reflexivity].
Qed.

Lemma link_upto_length k segs : length (link_upto k segs) = length segs.
Proof.
  induction k as [|k IH]; [reflexivity |].
  now rewrite link_upto_S, link_step_length.
Qed.

(** Inside the array, a turn of the loop writes the segment [S k]. *)
Lemma link_step_inside res k prev cur :
  res !! k = Some prev -> res !! S k = Some cur ->
  link_step res (S k) = <[S k := set_first (last prev) cur]> res.
Proof.
  intros Hp Hc. unfold link_step.
  replace (S k - 1) with k by lia. now rewrite Hp, Hc.
Qed.

(** The segments after the last turn are still those of the file. *)
Lemma link_upto_beyond k segs j :
  k < j -> link_upto k segs !! j = segs !! j.
Proof.
  induction k as [|k IH]; intros Hj; [reflexivity |].
  rewrite link_upto_S. unfold link_step.
  destruct (link_upto k segs !! (S k - 1)); [| apply IH; lia].
  destruct (link_upto k segs !! S k); [| apply IH; lia].
  rewrite list_lookup_insert_ne by lia. apply IH. lia.
Qed.

(** The invariant of the loop: the pairs already visited are linked. *)
Lemma link_upto_linked k segs :
  k <= length segs - 1 ->
  forall i s1 s2,
    i < k ->
    link_upto k segs !! i = Some s1 -> link_upto k segs !! S i = Some s2 ->
    first s2 = last s1.
Proof.
  induction k as [|k IH]; intros Hk i s1 s2 Hi H1 H2; [lia |].
  rewrite link_upto_S in H1, H2.
  pose proof (link_upto_length k segs) as Hlen.
  destruct (lookup_lt_is_Some_2 (link_upto k segs) k) as [prev Hp]; [lia |].
  destruct (lookup_lt_is_Some_2 (link_upto k segs) (S k)) as [cur Hc]; [lia |].
  rewrite (@link_step_inside _ _ _ _ Hp Hc) in H1, H2.
  destruct (decide (i = k)) as [->|Hne].
  - rewrite list_lookup_insert_ne in H1 by lia.
    rewrite list_lookup_insert_eq in H2 by lia.
    rewrite Hp in H1. injection H1 as <-. injection H2 as <-.
    apply first_set_first.
  - rewrite list_lookup_insert_ne in H1 by lia.
    rewrite list_lookup_insert_ne in H2 by lia.
    apply (IH ltac:(lia) i); [lia | assumption | assumption].
Qed.

Lemma link_segments_linked segs : linked (link_segments segs).
Proof.
  intros i s1 s2 H1 H2. unfold link_segments in *.
  fold (link_upto (length segs - 1) segs) in H1, H2.
  apply lookup_lt_Some in H2 as Hlt. rewrite link_upto_length in Hlt.
  apply (@link_upto_linked (length segs - 1) segs ltac:(lia) i); [lia | auto | auto].
Qed.

(** When every segment has at least two controls, the loop gives segment
    [S i] the last control that segment [i] has in the file. *)
Lemma link_upto_lookup k segs :
  Forall (fun s => 2 <= length (controls s)) segs ->
  k <= length segs - 1 ->
  forall i s1 s2,
    i < k -> segs !! i = Some s1 -> segs !! S i = Some s2 ->
    link_upto k segs !! S i = Some (set_first (last s1) s2).
Proof.
  intros Hwf. induction k as [|k IH]; intros Hk i s1 s2 Hi H1 H2; [lia |].
  rewrite link_upto_S.
  pose proof (link_upto_length k segs) as Hlen.
  destruct (lookup_lt_is_Some_2 (link_upto k segs) k) as [prev Hp]; [lia |].
  destruct (lookup_lt_is_Some_2 (link_upto k segs) (S k)) as [cur Hc]; [lia |].
  rewrite (@link_step_inside _ _ _ _ Hp Hc).
  destruct (decide (i = k)) as [->|Hne].
  - rewrite list_lookup_insert_eq by lia.
    rewrite link_upto_beyond in Hc by lia. rewrite H2 in Hc. injection Hc as <-.
    f_equal. f_equal.
    destruct k as [|k'].
    + change (link_upto 0 segs) with segs in Hp.
      rewrite H1 in Hp. now injection Hp as <-.
    + destruct (lookup_lt_is_Some_2 segs k') as [s0 H0];
        [apply lookup_lt_Some in H1; lia |].
      rewrite (IH ltac:(lia) k' s0 s1 ltac:(lia) H0 H1) in Hp.
      injection Hp as <-. apply last_set_first.
      rewrite Forall_lookup in Hwf. apply (Hwf _ _ H1).
  - rewrite list_lookup_insert_ne by lia.
    apply IH; [lia | lia | assumption | assumption].
Qed.

Lemma link_segments_lookup segs i s1 s2 :
  Forall (fun s => 2 <= length (controls s)) segs ->
  segs !! i = Some s1 -> segs !! S i = Some s2 ->
  link_segments segs !! S i = Some (set_first (last s1) s2).
Proof.
  intros Hwf H1 H2. apply lookup_lt_Some in H2 as Hlt.
  unfold link_segments. fold (link_upto (length segs - 1) segs).
  apply link_upto_lookup; [assumption | lia | lia | assumption | assumption].
Qed.

Lemma link_segments_head segs : link_segments segs !! 0 = segs !! 0.
Proof.
  unfold link_segments. fold (link_upto (length segs - 1) segs).
  generalize (length segs - 1). intros k.
  induction k as [|k IH]; [reflexivity |].
  rewrite link_upto_S. unfold link_step.
  destruct (link_upto k segs !! (S k - 1)); [| exact IH].
  destruct (link_upto k segs !! S k); [| exact IH].
  rewrite list_lookup_insert_ne by lia. exact IH.
Qed.

End Linking.

Example load_gap_path :
  paths (setPathFileData (fun n => n) plain_app plain_format
           (mkPathFileData plain_gc [gap_path]))
  = [mkPath "p1" "Path" [mkSegment [Some 0; Some 1]; mkSegment [Some 1; Some 3]]
            plain_pc true false].
Proof. reflexivity. Qed.

Section StoreFacts.

Variable Cmd : Type.
Variable sanitize : string -> string.
Variable createNewInstance : Format -> Format.
Variable convertGeneralConfigUOL : GeneralConfig -> UnitOfLength -> GeneralConfig.
Variable convertPathConfigPointDensity : PathConfig -> Q -> Q -> PathConfig.

Implicit Types (a : App Cmd) (fmt : Format) (pfd : PathFileData).

Lemma setPathFileData_paths a fmt pfd :
  paths (setPathFileData sanitize a fmt pfd) = map (load_path sanitize) (pfd_paths pfd).
Proof. reflexivity. Qed.

Lemma cleared_clearHistory (h : History.t Cmd) : cleared (History.clearHistory h).
Proof. repeat split. Qed.

(** C2. After [setPathFileData] every loaded path has, for each pair of
    adjacent segments, the first control of the later segment and the last
    control of the earlier one at the same address: they are one object. *)
Theorem loaded_paths_share_endpoints a fmt pfd :
  Forall (fun p => linked (segments p)) (paths (setPathFileData sanitize a fmt pfd)).
Proof.
  rewrite setPathFileData_paths. apply Forall_forall. intros p Hp.
  apply in_map_iff in Hp. destruct Hp as [q [<- _]]. simpl.
  apply link_segments_linked.
Qed.

(** C4, amended. The loader rejects no path: the loaded paths are the paths
    of the file, in order, each with its segments linked.  The linking goes
    by order alone and never looks at coordinates: when every segment of a
    path has at least two controls, segment [i + 1] gets as its first control
    the very object that is the last control of segment [i] in the file, and
    the first segment is left as it is. *)
Theorem loader_links_by_order_and_rejects_nothing a fmt pfd :
  map uid (paths (setPathFileData sanitize a fmt pfd)) = map uid (pfd_paths pfd) /\
  Forall2 (fun p p' => segments p' = link_segments (segments p))
          (pfd_paths pfd) (paths (setPathFileData sanitize a fmt pfd)) /\
  (forall segs,
     Forall (fun s => 2 <= length (controls s)) segs ->
     link_segments segs !! 0 = segs !! 0 /\
     forall i s1 s2, segs !! i = Some s1 -> segs !! S i = Some s2 ->
       link_segments segs !! S i = Some (set_first (last s1) s2)).
Proof.
  rewrite setPathFileData_paths. split; [| split].
  - rewrite map_map. reflexivity.
  - induction (pfd_paths pfd) as [|p l IH]; simpl; constructor; auto.
  - intros segs Hwf. split; [apply link_segments_head |].
    intros i s1 s2. now apply link_segments_lookup.
Qed.

(** C5. New document, import and a format switch made by the user (the new
    format is not initialised yet) each end with [clearHistory()] on the
    history of the application: afterwards [done] and [undone] are empty and
    the saved marker says that nothing is modified. *)
Theorem history_cleared_on_new_import_switch
    a fmt pfd (newFormat : Format) (newPaths : list Path) :
  isInit newFormat = false ->
  let a1 := newPathFile createNewInstance a in
  let a2 := setPathFileData sanitize a fmt pfd in
  let a3 := changeFormat convertGeneralConfigUOL convertPathConfigPointDensity
              a newFormat newPaths in
  (history a1 = History.clearHistory (history a) /\ cleared (history a1)) /\
  (history a2 = History.clearHistory (history a) /\ cleared (history a2)) /\
  (history a3 = History.clearHistory (history a) /\ cleared (history a3)).
Proof.
  intros Hinit. simpl. repeat split.
  all: unfold changeFormat, formatReaction; simpl; rewrite Hinit; reflexivity.
Qed.

(** C9, amended. After a format switch made by the user, the general config
    of the new format has the point density that this same config had before
    the reaction ran, whatever the old format's point density was; the
    config that goes into [convertGeneralConfigUOL] has the robot width and
    height of the old format's config, and the result of that call, with the
    point density put back, is the new general config; every path gets the
    path config that [convertPathConfigPointDensity] makes of a config
    holding the path's previous [bentRateApplicableRange]. *)
Theorem format_switch_keeps_values a (newFormat : Format) (newPaths : list Path) :
  isInit newFormat = false ->
  let oldGC := gc (format a) in
  let a' := changeFormat convertGeneralConfigUOL convertPathConfigPointDensity
              a newFormat newPaths in
  pointDensity (gc (format a')) = pointDensity (gc newFormat) /\
  (exists g1,
     robotWidth g1 = robotWidth oldGC /\ robotHeight g1 = robotHeight oldGC /\
     pointDensity g1 = pointDensity (gc newFormat) /\
     robotWidth (gc (format a')) = robotWidth (convertGeneralConfigUOL g1 (uol oldGC)) /\
     robotHeight (gc (format a')) = robotHeight (convertGeneralConfigUOL g1 (uol oldGC))) /\
  Forall2 (fun p p' =>
             exists pc1,
               bentRateApplicableRange pc1 = bentRateApplicableRange (pc p) /\
               pc p' = convertPathConfigPointDensity pc1 (pointDensity oldGC)
                         (pointDensity (gc newFormat)))
          newPaths (paths a').
Proof.
  intros Hinit. simpl. unfold changeFormat, formatReaction. simpl.
  rewrite Hinit. simpl. unfold init. rewrite Hinit. simpl.
  split; [reflexivity | split].
  - exists (mkGeneralConfig (robotWidth (gc (format a))) (robotHeight (gc (format a)))
              (robotIsHolonomic (gc newFormat)) (showRobot (gc newFormat))
              (uol (gc newFormat)) (pointDensity (gc newFormat))
              (controlMagnetDistance (gc newFormat))).
    repeat split.
  - induction newPaths as [|p l IH]; simpl; constructor; [| exact IH].
    eexists. split; [| reflexivity]. reflexivity.
Qed.

End StoreFacts.

Example switch_to_inch_format :
  gc (format (changeFormat (fun g _ => g) (fun c _ _ => c) plain_app inch_format
                [gap_path]))
  = mkGeneralConfig 30 30 false false (254 # 10) (3 # 4) 2.
Proof. reflexivity. Qed.

Lemma gap_path_not_linked : ~ linked (segments gap_path).
Proof.
  intros Hl.
  specialize (Hl 0 (mkSegment [Some 0; Some 1]) (mkSegment [Some 2; Some 3])
                 eq_refl eq_refl).
  discriminate Hl.
Qed.

Lemma gap_path_not_coordinate_linkable :
  ~ coordinate_linkable gap_store (segments gap_path).
Proof.
  intros Hl.
  specialize (Hl 0 (mkSegment [Some 0; Some 1]) (mkSegment [Some 2; Some 3])
                 eq_refl eq_refl).
  vm_compute in Hl. destruct Hl as [Hx _]. discriminate Hx.
Qed.

(** C4 as it is stated fails: a path whose two segments are not linked and
    do not meet in coordinates, so that they cannot be linked by coordinate,
    is loaded all the same, and its second segment now starts at the end
    point of the first. *)
Lemma unlinkable_path_is_loaded :
  ~ linked (segments gap_path) /\
  ~ coordinate_linkable gap_store (segments gap_path) /\
  In (uid gap_path)
     (map uid (paths (setPathFileData (fun n => n) plain_app plain_format
                        (mkPathFileData plain_gc [gap_path])))) /\
  ~ (forall (store : gmap addr Control) (a : App unit) (fmt : Format)
            (pfd : PathFileData) (p : Path),
       In p (pfd_paths pfd) ->
       ~ linked (segments p) ->
       ~ coordinate_linkable store (segments p) ->
       ~ In (uid p) (map uid (paths (setPathFileData (fun n => n) a fmt pfd)))).
Proof.
  split; [exact gap_path_not_linked |].
  split; [exact gap_path_not_coordinate_linkable |].
  split; [left; reflexivity |].
  intros Hall.
  apply (Hall gap_store plain_app plain_format (mkPathFileData plain_gc [gap_path])
              gap_path).
  - left. reflexivity.
  - exact gap_path_not_linked.
  - exact gap_path_not_coordinate_linkable.
  - left. reflexivity.
Qed.

Lemma loader_links_by_order_and_rejects_nothing_witness :
  Forall (fun s => 2 <= length (controls s)) (segments gap_path) /\
  link_segments (segments gap_path) !! 1
  = Some (set_first (Some 1) (mkSegment [Some 2; Some 3])).
Proof.
  assert (Hwf : Forall (fun s => 2 <= length (controls s)) (segments gap_path))
    by (repeat constructor).
  split; [exact Hwf |].
  pose proof (loader_links_by_order_and_rejects_nothing
                (fun n => n) plain_app plain_format
                (mkPathFileData plain_gc [gap_path])) as [_ [_ Hlink]].
  destruct (Hlink (segments gap_path) Hwf) as [_ Hnext].
  exact (Hnext 0 (mkSegment [Some 0; Some 1]) (mkSegment [Some 2; Some 3])
               eq_refl eq_refl).
Defined.

Lemma history_cleared_on_new_import_switch_witness :
  isInit inch_format = false /\
  cleared (history (newPathFile (fun f => inch_format) plain_app)) /\
  cleared (history (setPathFileData (fun n => n) plain_app plain_format
                      (mkPathFileData plain_gc [gap_path]))) /\
  cleared (history (changeFormat (fun g _ => g) (fun c _ _ => c) plain_app
                      inch_format [gap_path])).
Proof.
  pose proof (history_cleared_on_new_import_switch
                (fun n => n) (fun f => inch_format) (fun g _ => g) (fun c _ _ => c)
                plain_app plain_format (mkPathFileData plain_gc [gap_path])
                inch_format [gap_path] eq_refl) as H.
  simpl in H. destruct H as [[_ H1] [[_ H2] [_ H3]]].
  split; [reflexivity |]. split; [exact H1 |]. split; [exact H2 | exact H3].
Defined.

(** C9 as it is stated fails for the point density: the document had a
    point density of 2, the format switched to comes with 3/4, and 3/4 is
    what the application has afterwards, whatever the two conversion
    functions do. *)
Lemma format_switch_changes_point_density :
  isInit inch_format = false /\
  (pointDensity (gc (format plain_app)) == 2)%Q /\
  (forall cg cp,
     pointDensity (gc (format (changeFormat cg cp plain_app inch_format [gap_path])))
     = (3 # 4)%Q) /\
  ~ (pointDensity
       (gc (format (changeFormat (fun g _ => g) (fun c _ _ => c) plain_app
                      inch_format [gap_path])))
     == pointDensity (gc (format plain_app)))%Q.
Proof.
  split; [reflexivity |]. split; [reflexivity |]. split; [reflexivity |].
  simpl. intros H. discriminate H.
Qed.

Lemma format_switch_keeps_values_witness :
  isInit inch_format = false /\
  pointDensity
    (gc (format (changeFormat (fun g _ => g) (fun c _ _ => c) plain_app
                   inch_format [gap_path])))
  = pointDensity (gc inch_format).
Proof.
  split; [reflexivity |].
  exact (proj1 (format_switch_keeps_values (fun g _ => g) (fun c _ _ => c)
                  plain_app inch_format [gap_path] eq_refl)).
Defined.

End MainApp.

(** ** Sampling engine ([sample], [resampleUniform] of core/Calculation)

    core/Calculation is not among the sources; [MainApp] only calls it.  The
    two steps below follow section 4.3 of the specification, over the real
    numbers. *)

Module Sampling.

Local Open Scope R_scope.

Record Vector : Type := mkVector { x : R; y : R }.

(** The Euclidean distance of two points. *)
Definition distance (p q : Vector) : R := dist_euc (x p) (y p) (x q) (y q).

(** Linear interpolation: [p] at 0, [q] at 1. *)
Definition interpolate (p q : Vector) (t : R) : Vector :=
  mkVector (x p + (x q - x p) * t) (y p + (y q - y p) * t).

Definition scale (k : R) (p : Vector) : Vector := mkVector (k * x p) (k * y p).

Definition add (p q : Vector) : Vector := mkVector (x p + x q) (y p + y q).

(** Modelled from the spec: a segment has 2 control points (linear) or 4
    (cubic Bezier: first, handle1, handle2, last); other counts are refused
    by validation before the engine runs. *)
Inductive Segment : Type :=
  | Linear (first last : Vector)
  | Cubic (first handle1 handle2 last : Vector).

(** Modelled from the spec: "Linear segment: position(t) = lerp(first, last,
    t)"; "Cubic segment: position(t) = (1-t)^3 P0 + 3(1-t)^2 t P1 +
    3(1-t) t^2 P2 + t^3 P3". *)
Definition position (s : Segment) (t : R) : Vector :=
  match s with
  | Linear p0 p1 => interpolate p0 p1 t
  | Cubic p0 p1 p2 p3 =>
      add (add (scale ((1 - t) * (1 - t) * (1 - t)) p0)
               (scale (3 * ((1 - t) * (1 - t)) * t) p1))
          (add (scale (3 * (1 - t) * (t * t)) p2)
               (scale (t * t * t) p3))
  end.

Definition sum (l : list R) : R := fold_right Rplus 0 l.

(** The least integer that is not below [r]. *)
Definition ceil (r : R) : Z := (1 - up (- r))%Z.

Section Engine.

(** The number of chords of the probe that estimates the length of a
    segment. *)
Variable probe : nat.

(** Modelled from the spec: "estimate arc length (e.g. sum of chord lengths
    from a fixed high-resolution probe)". *)
Definition estimatedLength (s : Segment) : R :=
  sum (map (fun j => distance (position s (INR j / INR probe))
                              (position s (INR (S j) / INR probe)))
           (seq 0 probe)).

(** Modelled from the spec: "step count = ceil(estimatedLength / density),
    floor to 1". *)
Definition stepCount (s : Segment) (density : R) : nat :=
  Z.to_nat (Z.max 1 (ceil (estimatedLength s / density))).

(** The samples of one segment after its first point, which it shares with
    the segment before: the positions at the evenly spaced steps 1/n, 2/n,
    ..., n/n. *)
Definition segmentSamples (s : Segment) (density : R) : list Vector :=
  let n := stepCount s density in
  map (fun j => position s (INR j / INR n)) (seq 1 n).

(** Modelled from the spec: [sample(path, density)], step 1 of section 4.3.
    The samples of the segments are concatenated in segment order and the
    shared end points appear once; the empty path gives no point. *)
Definition sample (path : list Segment) (density : R) : list Vector :=
  match path with
  | [] => []
  | s :: _ => position s 0 :: flat_map (fun seg => segmentSamples seg density) path
  end.

End Engine.

(** The length of the polyline that starts at [p] and goes through [rest]. *)
Fixpoint totalLength (p : Vector) (rest : list Vector) : R :=
  match rest with
  | [] => 0
  | q :: rest' => distance p q + totalLength q rest'
  end.

(** The point at the distance [s] along the polyline: the walk passes the
    raw points, taking their distances off [s], until [s] falls between two
    consecutive raw points, and interpolates linearly between these two. *)
Fixpoint pointAt (p : Vector) (rest : list Vector) (s : R) : Vector :=
  match rest with
  | [] => p
  | q :: rest' =>
      if Rlt_dec s (distance p q) then interpolate p q (s / distance p q)
      else pointAt q rest' (s - distance p q)
  end.

(** The number of multiples of [density], from 0 on, that the accumulated
    distance crosses before the end of the polyline. *)
Definition crossings (total density : R) : nat := Z.to_nat (ceil (total / density)).

(** Modelled from the spec: [resampleUniform(rawPoints, density)], step 2 of
    section 4.3, the positions of the output: "each time accumulated distance
    crosses a multiple of density, emit a new point by linear interpolation
    between the two bracketing raw points at the exact crossing distance",
    and "always include the path's literal first and last point".  The first
    point is the crossing of the multiple 0; the last point is added at the
    end. *)
Definition resampleUniform (raw : list Vector) (density : R) : list Vector :=
  match raw with
  | [] => []
  | p :: rest =>
      map (fun k => pointAt p rest (INR k * density))
          (seq 0 (crossings (totalLength p rest) density))
      ++ [List.last rest p]
  end.


(** Raw points that lie in order on one straight line are the
    interpolations of parameters that never go back. *)
Fixpoint nondecreasing (t : R) (ts : list R) : Prop :=
  match ts with
  | [] => True
  | u :: ts' => t <= u /\ nondecreasing u ts'
  end.






Lemma div_mult_cancel (a b : R) : 0 < b -> a / b * b = a.
Proof. intros Hb. field. lra. Qed.

Lemma vector_eq (p q : Vector) : x p = x q -> y p = y q -> p = q.
Proof. destruct p, q. simpl. now intros -> ->. Qed.


Lemma interpolate_1 (p q : Vector) : interpolate p q 1 = q.
Proof. apply vector_eq; simpl; ring. Qed.

Lemma distance_nonneg (p q : Vector) : 0 <= distance p q.
Proof. apply sqrt_pos. Qed.



(** Two points of one line: their distance is the difference of their
    parameters times the length of the line. *)
Lemma distance_interpolate (p q : Vector) (t u : R) :
  distance (interpolate p q t) (interpolate p q u) = Rabs (u - t) * distance p q.
Proof.
  unfold distance, dist_euc, interpolate. simpl.
  replace ((x p + (x q - x p) * t - (x p + (x q - x p) * u))² +
           (y p + (y q - y p) * t - (y p + (y q - y p) * u))²)
    with ((u - t)² * ((x p - x q)² + (y p - y q)²))
    by (unfold Rsqr; ring).
  rewrite sqrt_mult_alt by apply Rle_0_sqr.
  now rewrite sqrt_Rsqr_abs.
Qed.





Lemma ceil_spec (r : R) : IZR (ceil r) - 1 < r <= IZR (ceil r).
Proof.
  unfold ceil. destruct (archimed (- r)) as [H1 H2].
  rewrite minus_IZR. simpl. lra.
Qed.

Lemma ceil_unique (r : R) (z : Z) : IZR z - 1 < r -> r <= IZR z -> ceil r = z.
Proof.
  intros H1 H2. unfold ceil.
  assert (E : (1 - z)%Z = up (- r)).
  { apply tech_up; rewrite minus_IZR; lra. }
  rewrite <- E. lia.
Qed.

(** The multiples counted by [crossings] lie before the end. *)
Lemma crossings_below (total density : R) (k : nat) :
  0 < density -> (k < crossings total density)%nat -> INR k * density < total.
Proof.
  intros Hd Hk. unfold crossings in Hk.
  destruct (ceil_spec (total / density)) as [Hc _].
  assert (Hz : (Z.of_nat k + 1 <= ceil (total / density))%Z) by lia.
  apply IZR_le in Hz. rewrite plus_IZR, <- INR_IZR_INZ in Hz.
  assert (Hlt : INR k < total / density) by lra.
  apply Rmult_lt_compat_r with (r := density) in Hlt; [| exact Hd].
  now rewrite div_mult_cancel in Hlt.
Qed.




(** *** Raw points on one straight line *)

Lemma last_cons {A : Type} (u d : A) (l : list A) :
  List.last (u :: l) d = List.last l u.
Proof.
  revert u d. induction l as [|v l IH]; intros u d; [reflexivity |].
  change (List.last (u :: v :: l) d) with (List.last (v :: l) d).
  now rewrite !IH.
Qed.

Lemma totalLength_line (a b : Vector) (ts : list R) (t : R) :
  nondecreasing t ts ->
  totalLength (interpolate a b t) (map (interpolate a b) ts)
  = (List.last ts t - t) * distance a b.
Proof.
  revert t. induction ts as [|u ts IH]; intros t Hnd.
  - simpl. ring.
  - destruct Hnd as [Htu Hnd]. rewrite last_cons. cbn [map totalLength].
    rewrite (IH u Hnd), distance_interpolate, Rabs_pos_eq by lra. ring.
Qed.

Lemma pointAt_line (a b : Vector) (ts : list R) (t s : R) :
  nondecreasing t ts ->
  0 <= s ->
  s < totalLength (interpolate a b t) (map (interpolate a b) ts) ->
  pointAt (interpolate a b t) (map (interpolate a b) ts) s
  = interpolate a b (t + s / distance a b).
Proof.
  revert t s. induction ts as [|u ts IH]; intros t s Hnd Hs Hlt.
  - simpl in Hlt. lra.
  - destruct Hnd as [Htu Hnd]. cbn [map totalLength pointAt] in *.
    pose proof (distance_nonneg a b) as HL.
    rewrite distance_interpolate, Rabs_pos_eq in * by lra.
    destruct (Rlt_dec s ((u - t) * distance a b)) as [Hin|Hout].
    + assert (Hpos : 0 < (u - t) * distance a b) by lra.
      assert (HL' : 0 < distance a b) by nra.
      assert (Hut : 0 < u - t) by nra.
      apply vector_eq; simpl; field; lra.
    + assert (HL' : 0 < distance a b).
      { rewrite totalLength_line in Hlt by exact Hnd.
        destruct HL as [HL|HL]; [exact HL | rewrite <- HL in Hlt; lra]. }
      rewrite IH; [| exact Hnd | lra | lra].
      f_equal. field. lra.
Qed.

(** *** The sample of linear segments *)




(** *** A path with a corner *)

Section Corner.

Variable k : R.
Hypothesis k_pos : 0 < k.







End Corner.




(** *** A path of one linear segment *)

Lemma stepCount_pos (probe : nat) (s : Segment) (density : R) :
  (0 < stepCount probe s density)%nat.
Proof. unfold stepCount. lia. Qed.

(** The sample of a linear segment lies on the segment, at parameters that
    go from 0 to 1. *)
Lemma sample_linear (probe : nat) (a b : Vector) (density : R) :
  sample probe [Linear a b] density
  = map (interpolate a b)
        (0 :: map (fun j => INR j / INR (stepCount probe (Linear a b) density))
                  (seq 1 (stepCount probe (Linear a b) density))).
Proof.
  unfold sample. cbn [flat_map map position]. rewrite app_nil_r.
  f_equal. unfold segmentSamples. now rewrite map_map.
Qed.

Lemma nondecreasing_steps (n m a : nat) :
  (0 < n)%nat ->
  nondecreasing (INR a / INR n) (map (fun j => INR j / INR n) (seq (S a) m)).
Proof.
  intros Hn. assert (Hpos : 0 < INR n) by (apply lt_0_INR; exact Hn).
  revert a. induction m as [|m IH]; intros a; cbn [seq map nondecreasing]; [exact I |].
  split; [| apply IH].
  apply Rmult_le_compat_r; [left; now apply Rinv_0_lt_compat |].
  apply le_INR. lia.
Qed.

Lemma last_steps (n : nat) :
  (0 < n)%nat -> List.last (map (fun j => INR j / INR n) (seq 1 n)) 0 = 1.
Proof.
  intros Hn. destruct n as [|m]; [lia |].
  rewrite seq_S, map_app. cbn [map]. rewrite last_last.
  change (1 + m)%nat with (S m). field. apply not_0_INR. lia.
Qed.

Lemma last_map {A B : Type} (f : A -> B) (l : list A) (d : A) :
  List.last (map f l) (f d) = f (List.last l d).
Proof.
  revert d. induction l as [|u l IH]; intros d; [reflexivity |].
  cbn [map]. now rewrite !last_cons.
Qed.

(** Resampling the sample of one linear segment gives the points of the
    segment at the multiples of the density, and its end point. *)
Lemma resample_linear (probe : nat) (a b : Vector) (density : R) :
  0 < density ->
  resampleUniform (sample probe [Linear a b] density) density
  = map (fun k => interpolate a b (INR k * density / distance a b))
        (seq 0 (crossings (distance a b) density))
    ++ [b].
Proof.
  intros Hd. rewrite sample_linear.
  set (n := stepCount probe (Linear a b) density).
  assert (Hn : (0 < n)%nat) by apply stepCount_pos.
  set (ts := map (fun j => INR j / INR n) (seq 1 n)).
  assert (Hnd : nondecreasing 0 ts).
  { replace 0 with (INR 0 / INR n) by (simpl; field; apply not_0_INR; lia).
    now apply nondecreasing_steps. }
  assert (Hlast : List.last ts 0 = 1) by now apply last_steps.
  cbn [map]. unfold resampleUniform.
  assert (Htot : totalLength (interpolate a b 0) (map (interpolate a b) ts)
                 = distance a b)
    by (rewrite totalLength_line, Hlast by exact Hnd; ring).
  rewrite Htot. f_equal.
  - apply map_ext_in. intros k Hk. apply in_seq in Hk.
    assert (Hlt : INR k * density < distance a b)
      by (apply crossings_below; [exact Hd | lia]).
    rewrite pointAt_line; [f_equal; ring | exact Hnd | | now rewrite Htot].
    apply Rmult_le_pos; [apply pos_INR | lra].
  - now rewrite last_map, Hlast, interpolate_1.
Qed.

(** The example of the specification: the linear segment from (0, 0) to
    (100, 0) with the density 10 gives the 11 points at x = 0, 10, ..., 100. *)
Example linear_segment_every_10 (probe : nat) :
  resampleUniform (sample probe [Linear (mkVector 0 0) (mkVector 100 0)] 10) 10
  = map (fun j => mkVector (INR j * 10) 0) (seq 0 11).
Proof.
  assert (Hd : distance (mkVector 0 0) (mkVector 100 0) = 100).
  { unfold distance, dist_euc. simpl.
    replace ((0 - 100)² + (0 - 0)²) with 100² by (unfold Rsqr; ring).
    apply sqrt_Rsqr. lra. }
  rewrite resample_linear by lra. rewrite Hd. unfold crossings.
  rewrite (@ceil_unique (100 / 10) 10) by lra.
  change (Z.to_nat 10) with 10%nat.
  cbn [seq map app INR].
  repeat (apply (f_equal2 cons);
          [apply vector_eq; unfold interpolate; simpl; field |]).
  reflexivity.
Qed.




End Sampling.

(** ** The modal component ([Modal]) and bursts of [open]

    A [Modal] component watches [modals.opening] and calls its [onClose] and
    [onOpen] properties from the reaction on that value. *)

Module ModalComponent.

Import Modals.

Inductive Callback : Type := OnClose | OnOpen.

Definition is_symbol (v : option Symbol) (s : Symbol) : bool :=
  match v with
  | Some s' => Nat.eqb s' s
  | None => false
  end.

Definition is_null (v : option Symbol) : bool :=
  match v with
  | Some _ => false
  | None => true
  end.

(** The effect of the reaction of the component whose [props.symbol] is
    [sym], called with the current and the previous value of
    [modals.opening]: the callbacks it runs, in order. *)
Definition effect (sym : Symbol) (curr prev : option Symbol) : list Callback :=
  (if is_symbol prev sym && is_null curr then [OnClose] else [])
  ++ (if is_null prev && is_symbol curr sym then [OnOpen] else []).

Definition same_value (a b : option Symbol) : bool :=
  match a, b with
  | Some x, Some y => Nat.eqb x y
  | None, None => true
  | _, _ => false
  end.

(** The reaction between two states of the modal manager: the effect runs
    only when [modals.opening] changed. *)
Definition notify (sym : Symbol) (before after : t) : list Callback :=
  if same_value (opening before) (opening after) then []
  else effect sym (opening after) (opening before).

(** [open={modals.opening === props.symbol}]. *)
Definition shown (sym : Symbol) (m : t) : bool := is_symbol (opening m) sym.

(** A burst of [open(symbol, priority)] calls, the head first. *)
Definition open_all (calls : list (Symbol * Z)) (m : t) : t :=
  fold_left (fun acc c => fst (open acc (fst c) (snd c))) calls m.

Example replacing_runs_no_callback :
  let m := Some (mkOpening 1 0) in
  fst (open m 2 5) = Some (mkOpening 2 5) /\
  notify 1 m (fst (open m 2 5)) = [] /\ notify 2 m (fst (open m 2 5)) = [].
Proof. repeat split. Qed.

Example burst_keeps_highest :
  open_all [(1, 0%Z); (2, 5%Z); (3, 2%Z); (4, 5%Z); (5, 4%Z)] None
  = Some (mkOpening 4 5).
Proof. reflexivity. Qed.

Lemma is_symbol_refl (s : Symbol) : is_symbol (Some s) s = true.
Proof. simpl. apply Nat.eqb_refl. Qed.

(** X1. What the components are told.  Opening a modal while none is open
    runs [onOpen] of the component of that symbol and nothing else; an
    accepted [open] while a modal is open, which replaces it, runs no
    callback of any component, neither [onClose] of the replaced one nor
    [onOpen] of the new one; a refused [open] runs nothing; a [close] that
    clears the open modal runs [onClose] of the component that was shown and
    nothing else. *)
Theorem modal_callbacks_on_transitions (sym s : Symbol) (p : Z) (m : t)
        (c : option Symbol) :
  (m = None ->
     notify sym m (fst (open m s p)) = if Nat.eqb s sym then [OnOpen] else []) /\
  (isOpen m = true -> notify sym m (fst (open m s p)) = []) /\
  (isOpen m = true -> (c = None \/ c = opening m) ->
     notify sym m (close m c) = if shown sym m then [OnClose] else []).
Proof.
  split; [| split].
  - intros ->. unfold notify, effect. simpl. destruct (Nat.eqb s sym); reflexivity.
  - destruct m as [o|]; [intros _ | discriminate].
    unfold notify, effect, open.
    destruct (priority o <=? p)%Z; simpl.
    + destruct (Nat.eqb (symbol o) s); [reflexivity |].
      rewrite andb_false_r. reflexivity.
    + now rewrite Nat.eqb_refl.
  - destruct m as [o|]; [intros _ | discriminate].
    intros Hc.
    assert (E : close (Some o) c = None).
    { destruct Hc as [-> | ->]; [reflexivity |]. simpl. now rewrite Nat.eqb_refl. }
    rewrite E. unfold notify, effect, shown. simpl.
    rewrite andb_true_r. destruct (Nat.eqb (symbol o) sym); reflexivity.
Qed.

Lemma open_result (m : t) (s : Symbol) (p : Z) :
  exists o, fst (open m s p) = Some o /\
            (p <= priority o)%Z /\
            (forall o0, m = Some o0 -> (priority o0 <= priority o)%Z) /\
            (fst (open m s p) = m \/ o = mkOpening s p).
Proof.
  destruct m as [o0|]; simpl.
  - destruct (Z.leb_spec (priority o0) p) as [Hle|Hlt]; simpl.
    + exists (mkOpening s p). simpl. repeat split; auto; try lia.
      intros o1 E. injection E as <-. exact Hle.
    + exists o0. repeat split; auto; try lia.
      intros o1 E. injection E as <-. lia.
  - exists (mkOpening s p). simpl. repeat split; auto; try lia. discriminate.
Qed.

(** X2. After a burst of [open] calls with no [close] in between, a modal is
    open, its priority is at least the priority of every call of the burst
    and of the modal that was open before, and it is that earlier modal or
    comes from one of the calls: the highest priority wins. *)
Theorem open_all_highest_priority (calls : list (Symbol * Z)) (m : t) :
  calls <> [] \/ isOpen m = true ->
  exists o,
    open_all calls m = Some o /\
    (forall c, In c calls -> (snd c <= priority o)%Z) /\
    (forall o0, m = Some o0 -> (priority o0 <= priority o)%Z) /\
    (m = Some o \/ exists c, In c calls /\ o = mkOpening (fst c) (snd c)).
Proof.
  revert m. induction calls as [|[s p] calls IH]; intros m Hne.
  - destruct Hne as [Hne | Ho]; [contradiction |].
    destruct m as [o|]; [| discriminate]. exists o. simpl.
    repeat split; auto; try contradiction.
    intros o0 E. injection E as <-. lia.
  - destruct (open_result m s p) as [o1 [E1 [Hp [Hprev Hfrom]]]].
    destruct (IH (fst (open m s p)) ltac:(right; now rewrite E1))
      as [o [Ho [Hcalls [Hfirst Horigin]]]].
    exists o. split; [exact Ho |].
    specialize (Hfirst o1 E1).
    split; [| split].
    + intros c [<- | Hin]; [simpl; lia | now apply Hcalls].
    + intros o0 E0. specialize (Hprev o0 E0). lia.
    + destruct Horigin as [Hsame | [c [Hin Hc]]].
      * rewrite E1 in Hsame. injection Hsame as <-.
        destruct Hfrom as [Hm | Hnew].
        -- left. now rewrite <- Hm.
        -- right. exists (s, p). split; [now left | exact Hnew].
      * right. exists c. split; [now right | exact Hc].
Qed.

Lemma open_all_highest_priority_witness :
  (exists o,
     open_all [(1, 0%Z); (2, 5%Z); (3, 2%Z)] None = Some o /\
     (forall c, In c [(1, 0%Z); (2, 5%Z); (3, 2%Z)] -> (snd c <= priority o)%Z)).
Proof.
  destruct (@open_all_highest_priority [(1, 0%Z); (2, 5%Z); (3, 2%Z)] None
              ltac:(left; discriminate)) as [o [Ho [Hc _]]].
  exists o. split; [exact Ho | exact Hc].
Defined.

End ModalComponent.

(** ** Selected entities ([MainApp.selectedControl], [selectedPath],
    [selectedEntities], [interestedPath]) and the order of an area selection *)

Module Entities.

Import Selection.

(** [PathTreeItem]: a path or a control. *)
Inductive PathTreeItem : Type :=
  | PathItem (p : Path)
  | ControlItem (c : Control).

Definition item_uid (x : PathTreeItem) : string :=
  match x with
  | PathItem p => puid p
  | ControlItem c => uid c
  end.

(** [isSelected(x)], for a uid or for the uid of an entity. *)
Definition isSelected (a : App) (u : string) : bool := includes (selected a) u.

Definition defined {A : Type} (o : option A) : bool :=
  match o with
  | Some _ => true
  | None => false
  end.

(** [control.uid === this.selected[0]]; [selected[0]] is [undefined] on the
    empty selection, which no uid equals. *)
Definition is_first_selected (a : App) (c : Control) : bool :=
  match selected a with
  | [] => false
  | u :: _ => String.eqb (uid c) u
  end.

(** [selectedControl]: per path the first control with the uid
    [selected[0]], then the first of these that is defined. *)
Definition selectedControl (a : App) : option Control :=
  match find defined (map (fun p => find (is_first_selected a) (controls p)) (paths a)) with
  | Some o => o
  | None => None
  end.

Definition has_selected_control (a : App) (p : Path) : bool :=
  existsb (fun c => isSelected a (uid c)) (controls p).

Definition selectedPath (a : App) : option Path :=
  if (length (selected a) =? 0)%nat then None
  else
    match find (fun p => isSelected a (puid p)) (paths a) with
    | Some p => Some p
    | None => find (has_selected_control a) (paths a)
    end.

(** [selectedEntities]: the loops over the paths and their controls, pushing
    onto [rtn]. *)
Definition selectedEntities (a : App) : list PathTreeItem :=
  fold_left
    (fun rtn p =>
       let rtn1 := if isSelected a (puid p) then rtn ++ [PathItem p] else rtn in
       fold_left
         (fun r c => if isSelected a (uid c) then r ++ [ControlItem c] else r)
         (controls p) rtn1)
    (paths a) [].

(** Each path followed by its controls, the paths in order. *)
Definition tree (a : App) : list PathTreeItem :=
  flat_map (fun p => PathItem p :: map ControlItem (controls p)) (paths a).

Definition is_current (a : App) (c : Path) : bool :=
  existsb (fun p => String.eqb (puid p) (puid c)) (paths a).

(** [interestedPath()], given the field [lastInterestedPath]: the returned
    path and the new value of the field. *)
Definition interestedPath (a : App) (lastInterestedPath : option Path)
  : option Path * option Path :=
  let check :=
    match selectedPath a with
    | Some p => Some p
    | None =>
        match lastInterestedPath with
        | Some p => Some p
        | None => hd_error (paths a)
        end
    end in
  let rtn :=
    match check with
    | Some c => if is_current a c then Some c else None
    | None => None
    end in
  (rtn, rtn).

(** A removed path is still remembered as the last interesting one: the
    first call gives nothing, the second falls back to the first path. *)
Example interestedPath_after_removal :
  let p1 := mkPath "p1" true false [] in
  let gone := mkPath "p0" true false [] in
  let a := mkApp [p1] [] [] in
  interestedPath a (Some gone) = (None, None) /\
  interestedPath a (snd (interestedPath a (Some gone))) = (Some p1, Some p1).
Proof. split; reflexivity. Qed.

Example selectedControl_needs_first :
  let c := mkControl "c1" 0 0 true false in
  let p := mkPath "p1" true false [c] in
  selectedControl (mkApp [p] ["p1"; "c1"]%string []) = None /\
  selectedControl (mkApp [p] ["c1"; "p1"]%string []) = Some c.
Proof. split; reflexivity. Qed.

Section EntityFacts.

Implicit Types (a : App) (p : Path) (c : Control).

Lemma inner_loop a (cs : list Control) (rtn : list PathTreeItem) :
  fold_left (fun r c => if isSelected a (uid c) then r ++ [ControlItem c] else r) cs rtn
  = rtn ++ filter (fun x => isSelected a (item_uid x)) (map ControlItem cs).
Proof.
  revert rtn. induction cs as [|c cs IH]; intros rtn; simpl.
  - now rewrite app_nil_r.
  - rewrite IH. destruct (isSelected a (uid c)); [| reflexivity].
    now rewrite <- app_assoc.
Qed.

Lemma outer_loop a (ps : list Path) (rtn : list PathTreeItem) :
  fold_left
    (fun rtn p =>
       let rtn1 := if isSelected a (puid p) then rtn ++ [PathItem p] else rtn in
       fold_left
         (fun r c => if isSelected a (uid c) then r ++ [ControlItem c] else r)
         (controls p) rtn1)
    ps rtn
  = rtn ++ filter (fun x => isSelected a (item_uid x))
             (flat_map (fun p => PathItem p :: map ControlItem (controls p)) ps).
Proof.
  revert rtn. induction ps as [|p ps IH]; intros rtn; simpl.
  - now rewrite app_nil_r.
  - rewrite IH, inner_loop, filter_app.
    destruct (isSelected a (puid p)); simpl; now rewrite <- !app_assoc.
Qed.

(** X3. [selectedEntities] is the list of all paths and controls, each path
    followed by its controls, from which the entities that are not selected
    are left out: it keeps the order of the tree, not the order in which the
    entities were selected. *)
Theorem selectedEntities_in_tree_order a :
  selectedEntities a = filter (fun x => isSelected a (item_uid x)) (tree a).
Proof. unfold selectedEntities, tree. now rewrite outer_loop. Qed.

Lemma find_defined_map {A B : Type} (f : A -> option B) (l : list A) :
  match find defined (map f l) with
  | Some o => o
  | None => None
  end
  = match find (fun x => defined (f x)) l with
    | Some x => f x
    | None => None
    end.
Proof.
  induction l as [|x l IH]; simpl; [reflexivity |].
  destruct (f x) eqn:E; simpl; rewrite ?E; simpl; [congruence | exact IH].
Qed.

(** X4. [selectedControl] looks at the first selected uid only.  When it
    gives a control, that control belongs to a path and its uid is the first
    selected uid; it gives nothing exactly when the selection is empty or no
    control of any path has the first selected uid, whatever else is
    selected. *)
Theorem selectedControl_first_selected_only a :
  (forall c, selectedControl a = Some c ->
     exists u rest p,
       selected a = u :: rest /\ uid c = u /\ In p (paths a) /\ In c (controls p)) /\
  (selectedControl a = None <->
     selected a = [] \/
     exists u rest, selected a = u :: rest /\
       forall p c, In p (paths a) -> In c (controls p) -> uid c <> u).
Proof.
  unfold selectedControl. rewrite find_defined_map. split.
  - intros c Hc.
    destruct (find (fun x => defined (find (is_first_selected a) (controls x))) (paths a))
      as [p|] eqn:Ep; [| discriminate].
    apply find_some in Ep. destruct Ep as [Hp _].
    apply find_some in Hc. destruct Hc as [Hin Hfirst].
    unfold is_first_selected in Hfirst.
    destruct (selected a) as [|u rest]; [discriminate |].
    apply String.eqb_eq in Hfirst. exists u, rest, p. auto.
  - split.
    + intros Hnone.
      destruct (selected a) as [|u rest] eqn:Es; [now left |]. right.
      exists u, rest. split; [reflexivity |]. intros p c Hp Hc Hu.
      assert (Hf : is_first_selected a c = true)
        by (unfold is_first_selected; rewrite Es; now apply String.eqb_eq).
      destruct (find (fun x => defined (find (is_first_selected a) (controls x))) (paths a))
        as [q|] eqn:Eq.
      * apply find_some in Eq. destruct Eq as [_ Hd].
        rewrite Hnone in Hd. discriminate.
      * pose proof (find_none _ _ Eq p Hp) as Hd. simpl in Hd.
        destruct (find (is_first_selected a) (controls p)) eqn:Ef; [discriminate |].
        pose proof (find_none _ _ Ef c Hc) as Hn. congruence.
    + intros Hno.
      destruct (find (fun x => defined (find (is_first_selected a) (controls x))) (paths a))
        as [q|] eqn:Eq; [| reflexivity].
      apply find_some in Eq. destruct Eq as [Hq Hd].
      destruct (find (is_first_selected a) (controls q)) as [c|] eqn:Ef; [| reflexivity].
      apply find_some in Ef. destruct Ef as [Hc Hf]. unfold is_first_selected in Hf.
      destruct Hno as [Hs | [u [rest [Hs Hall]]]]; rewrite Hs in Hf; [discriminate |].
      apply String.eqb_eq in Hf. exfalso. exact (Hall q c Hq Hc Hf).
Qed.

Lemma isSelected_nonempty a (u : string) :
  isSelected a u = true -> (length (selected a) =? 0)%nat = false.
Proof.
  unfold isSelected. destruct (selected a); [discriminate | reflexivity].
Qed.

Lemma selectedPath_some a p :
  selectedPath a = Some p ->
  In p (paths a) /\
  (isSelected a (puid p) = true \/ has_selected_control a p = true).
Proof.
  unfold selectedPath. intros Hp.
  destruct (length (selected a) =? 0)%nat; [discriminate |].
  destruct (find (fun p => isSelected a (puid p)) (paths a)) as [q|] eqn:Eq.
  - injection Hp as <-. apply find_some in Eq. tauto.
  - apply find_some in Hp. tauto.
Qed.

(** X5. [selectedPath] gives nothing for the empty selection; a path it
    gives is one of the paths and is selected or has a selected control; it
    gives nothing exactly when no path is selected and no path has a
    selected control; and when some path is selected it gives a selected
    path, even if a path with a selected control comes first. *)
Theorem selectedPath_prefers_selected_paths a :
  (selected a = [] -> selectedPath a = None) /\
  (forall p, selectedPath a = Some p ->
     In p (paths a) /\
     (isSelected a (puid p) = true \/ has_selected_control a p = true)) /\
  (selectedPath a = None <->
     forall p, In p (paths a) ->
       isSelected a (puid p) = false /\ has_selected_control a p = false) /\
  (forall q, In q (paths a) -> isSelected a (puid q) = true ->
     exists p, selectedPath a = Some p /\ isSelected a (puid p) = true).
Proof.
  split; [| split; [exact (selectedPath_some a) | unfold selectedPath; split]].
  - unfold selectedPath. intros ->. reflexivity.
  - split.
    + intros Hnone p Hp.
      destruct (length (selected a) =? 0)%nat eqn:El.
      * assert (Hs : selected a = []) by (destruct (selected a); [reflexivity | discriminate]).
        unfold has_selected_control, isSelected. rewrite Hs. simpl.
        split; [reflexivity |]. induction (controls p); [reflexivity | assumption].
      * destruct (find (fun p => isSelected a (puid p)) (paths a)) eqn:Eq; [discriminate |].
        split; [exact (find_none _ _ Eq p Hp) | exact (find_none _ _ Hnone p Hp)].
    + intros Hall. destruct (length (selected a) =? 0)%nat; [reflexivity |].
      destruct (find (fun p => isSelected a (puid p)) (paths a)) as [q|] eqn:Eq.
      * apply find_some in Eq. destruct Eq as [Hq Hs].
        destruct (Hall q Hq) as [Hn _]. congruence.
      * destruct (find (has_selected_control a) (paths a)) as [q|] eqn:Ec; [| reflexivity].
        apply find_some in Ec. destruct Ec as [Hq Hs].
        destruct (Hall q Hq) as [_ Hn]. congruence.
  - intros q Hq Hs. rewrite (@isSelected_nonempty a (puid q) Hs).
    destruct (find (fun p => isSelected a (puid p)) (paths a)) as [p|] eqn:Ep.
    + exists p. apply find_some in Ep. tauto.
    + pose proof (find_none _ _ Ep q Hq) as Hn. simpl in Hn. congruence.
Qed.

Lemma is_current_In a p : In p (paths a) -> is_current a p = true.
Proof.
  intros Hp. unfold is_current. apply existsb_exists.
  exists p. split; [exact Hp | apply String.eqb_refl].
Qed.

Lemma is_current_uid a p :
  is_current a p = true -> exists q, In q (paths a) /\ puid q = puid p.
Proof.
  unfold is_current. rewrite existsb_exists. intros [q [Hq He]].
  exists q. split; [exact Hq | now apply String.eqb_eq].
Qed.

Lemma selectedPath_current a p : selectedPath a = Some p -> is_current a p = true.
Proof.
  intros Hp. apply is_current_In. now apply selectedPath_some in Hp.
Qed.

Lemma is_current_false a p :
  is_current a p = false -> forall q, In q (paths a) -> puid q <> puid p.
Proof.
  intros Hn q Hq He.
  assert (Ht : is_current a p = true).
  { unfold is_current. apply existsb_exists. exists q.
    split; [exact Hq | now apply String.eqb_eq]. }
  congruence.
Qed.

Lemma is_current_nonempty a p : is_current a p = true -> paths a <> [].
Proof.
  intros Hc. apply is_current_uid in Hc. destruct Hc as [q [Hq _]].
  intros E. rewrite E in Hq. contradiction.
Qed.

(** X6. [interestedPath()] gives nothing or a path whose uid is the uid of
    one of the paths, and stores what it gives in [lastInterestedPath].  A
    path it gave is given again by the next call when the paths and the
    selection are the same; and that next call gives nothing only when
    there is no path at all.  The first call can give nothing although
    there are paths: this happens only when no path is interesting by
    selection and the remembered path has the uid of none of the paths,
    which keeps the fallback to the first path from being looked at. *)
Theorem interestedPath_current_and_settles a (lastInterestedPath : option Path) :
  let r1 := fst (interestedPath a lastInterestedPath) in
  let l1 := snd (interestedPath a lastInterestedPath) in
  let r2 := fst (interestedPath a l1) in
  l1 = r1 /\
  (forall p, r1 = Some p -> exists q, In q (paths a) /\ puid q = puid p) /\
  (r1 <> None -> r2 = r1) /\
  (r2 = None <-> paths a = []) /\
  (r1 = None -> paths a <> [] ->
     selectedPath a = None /\
     exists s, lastInterestedPath = Some s /\
               forall q, In q (paths a) -> puid q <> puid s).
Proof.
  unfold interestedPath. cbn [fst snd].
  destruct (selectedPath a) as [p|] eqn:Es.
  - pose proof (@selectedPath_current a p Es) as Hc. rewrite !Hc.
    pose proof (@is_current_nonempty a p Hc) as Hne.
    repeat split; try discriminate; try congruence.
    intros q E. injection E as <-. now apply is_current_uid.
  - destruct lastInterestedPath as [s|].
    + destruct (is_current a s) eqn:Hc.
      * rewrite Hc. pose proof (@is_current_nonempty a s Hc) as Hne.
        repeat split; try discriminate; try congruence.
        intros q E. injection E as <-. now apply is_current_uid.
      * destruct (paths a) as [|q ps] eqn:Ep; cbn [hd_error].
        -- repeat split; try discriminate; try congruence.
        -- assert (Hq : is_current a q = true)
             by (apply is_current_In; rewrite Ep; now left).
           rewrite Hq. repeat split; try discriminate; try congruence.
           exists s. split; [reflexivity |]. rewrite <- Ep.
           now apply is_current_false.
    + destruct (paths a) as [|q ps] eqn:Ep; cbn [hd_error].
      * repeat split; try discriminate; try congruence.
      * assert (Hq : is_current a q = true)
          by (apply is_current_In; rewrite Ep; now left).
        rewrite !Hq.
        repeat split; try discriminate; try congruence.
        intros p E. injection E as <-. exists q. split; [now left | reflexivity].
Qed.

Lemma dedup_from_seen_irrelevant (l s1 s2 : list string) :
  (forall u, In u l -> includes s1 u = includes s2 u) ->
  dedup_from s1 l = dedup_from s2 l.
Proof.
  revert s1 s2. induction l as [|v l IH]; intros s1 s2 Hs; [reflexivity |].
  simpl. rewrite <- (Hs v) by now left.
  destruct (includes s1 v).
  - apply IH. intros u Hu. apply Hs. now right.
  - f_equal. apply IH. intros u Hu. unfold includes. simpl.
    f_equal. apply Hs. now right.
Qed.

Lemma dedup_from_app_disjoint (X Y seen : list string) :
  (forall u, In u Y -> includes seen u = false /\ ~ In u X) ->
  dedup_from seen (X ++ Y) = dedup_from seen X ++ dedup_from [] Y.
Proof.
  revert seen. induction X as [|v X IH]; intros seen Hd.
  - simpl. apply dedup_from_seen_irrelevant. intros u Hu.
    now rewrite (proj1 (Hd u Hu)).
  - simpl. destruct (includes seen v) eqn:Ev.
    + apply IH. intros u Hu. destruct (Hd u Hu) as [H1 H2].
      split; [exact H1 | intros H; apply H2; now right].
    + simpl. f_equal. apply IH. intros u Hu. destruct (Hd u Hu) as [H1 H2].
      split; [| intros H; apply H2; now right].
      unfold includes in *. simpl. rewrite H1, orb_false_r.
      apply String.eqb_neq. intros ->. apply H2. now left.
Qed.

(** X7. The order of an area selection: first the uids selected at the
    start that are not in the rectangle, in the order they had, then the
    uids in the rectangle that were not selected at the start, in the order
    of the tree, each uid once.  The result depends on the rectangle of the
    last update only: an update after another one is that update alone. *)
Theorem area_selection_order a (from to from' to' : Vector) :
  selected (updateAreaSelection a from to)
  = dedup (filter (fun u => negb (includes (highlighted a from to) u)) (selectedBefore a))
    ++ dedup (filter (fun u => negb (includes (selectedBefore a) u)) (highlighted a from to)) /\
  updateAreaSelection (updateAreaSelection a from to) from' to'
  = updateAreaSelection a from' to'.
Proof.
  split; [| reflexivity].
  unfold updateAreaSelection. cbn [selected]. rewrite filter_app.
  set (hl := highlighted a from to). set (before := selectedBefore a).
  assert (E1 : filter (fun u => negb (includes before u && includes hl u)) before
               = filter (fun u => negb (includes hl u)) before).
  { apply filter_ext_in. intros u Hu. apply includes_In in Hu. now rewrite Hu. }
  assert (E2 : filter (fun u => negb (includes before u && includes hl u)) hl
               = filter (fun u => negb (includes before u)) hl).
  { apply filter_ext_in. intros u Hu. apply includes_In in Hu.
    now rewrite Hu, andb_true_r. }
  rewrite E1, E2. unfold dedup. apply dedup_from_app_disjoint.
  intros u Hu. apply filter_In in Hu. destruct Hu as [_ Hn].
  apply negb_true_iff in Hn. split; [reflexivity |].
  intros Hx. apply filter_In in Hx. destruct Hx as [Hb _].
  apply includes_In in Hb. congruence.
Qed.

End EntityFacts.

End Entities.

(** ** More on the document loader, the format reaction and the reaction on
    the unit of length *)

Module Loading.

Import MainApp.

(** A store of controls: the contents of the control object at each
    address. *)
Definition Store := gmap addr Control.

Section UnitReaction.

Variable Cmd : Type.

(** The getter [Path.controls] of core/Path: the references to the controls
    of a path. *)
Variable controlsOf : Path -> list addr.

(** [new UnitConverter(a, b).fromAtoB(v)] of core/Unit. *)
Variable fromAtoB : UnitOfLength -> UnitOfLength -> Q -> Q.

(** [control.x = uc.fromAtoB(control.x); control.y = uc.fromAtoB(control.y)]
    on the control object at [r]. *)
Definition convertControl (oldUOL newUOL : UnitOfLength) (st : Store) (r : addr) : Store :=
  match st !! r with
  | Some c =>
      <[r := mkControl (cuid c) (fromAtoB oldUOL newUOL (cx c))
                       (fromAtoB oldUOL newUOL (cy c))]> st
  | None => st
  end.

(** The reaction on [this.gc.uol], called with the new and the old unit. *)
Definition uolReaction (a : App Cmd) (st : Store) (newUOL oldUOL : UnitOfLength)
  : App Cmd * Store :=
  if Qeq_bool (usingUOL a) newUOL then (a, st)
  else
    (mkApp (format a) newUOL (paths a) (selected a) (lastInterestedPath a)
           (expanded a) (magnet a) (history a) (robotVisible a) (fieldDisplay a),
     fold_left
       (fun s path => fold_left (convertControl oldUOL newUOL) (controlsOf path) s)
       (paths a) st).

End UnitReaction.

Definition two_controls : Store :=
  <[0 := mkControl "a" 10 20]> (<[7 := mkControl "robot" 1 1]> ∅).

Example uolReaction_converts :
  let a := mkApp plain_format 10%Q [gap_path] [] None [] None
                 (History.mk (@nil unit) [] (Some 0)) true
                 (mkFieldDisplay (mkVector 0 0) 1) in
  let r := uolReaction (fun _ => [0]) (fun _ _ v => (v * (1 # 10))%Q) a two_controls 1%Q 10%Q in
  usingUOL (fst r) = 1%Q /\
  snd r !! 0 = Some (mkControl "a" (10 * (1 # 10)) (20 * (1 # 10))) /\
  snd r !! 7 = Some (mkControl "robot" 1 1).
Proof. repeat split. Qed.

Section LinkingMore.

Implicit Types (segs res : list Segment) (s : Segment) (v : ref).

Lemma set_first_same s : controls s <> [] -> set_first (first s) s = s.
Proof.
  destruct s as [[|r rest]]; unfold set_first, first; simpl; [contradiction | reflexivity].
Qed.

Lemma set_first_nonempty v s : controls (set_first v s) <> [].
Proof. unfold set_first. destruct (controls s); discriminate. Qed.

Lemma tl_set_first v s : tl (controls (set_first v s)) = tl (controls s).
Proof. unfold set_first. destruct (controls s); reflexivity. Qed.

(** A turn of the loop on a pair that is linked already changes nothing. *)
Lemma link_step_linked segs j :
  (1 <= j)%nat -> linked segs ->
  (forall s, segs !! j = Some s -> controls s <> []) ->
  link_step segs j = segs.
Proof.
  intros Hj Hl Hne. destruct j as [|i]; [lia |].
  unfold link_step. replace (S i - 1)%nat with i by lia.
  destruct (segs !! i) as [prev|] eqn:Ep; [| reflexivity].
  destruct (segs !! S i) as [cur|] eqn:Ec; [| reflexivity].
  rewrite <- (Hl i prev cur Ep Ec), set_first_same by now apply Hne.
  now apply list_insert_id.
Qed.

Lemma fold_left_unchanged {A B : Type} (f : A -> B -> A) (l : list B) (x : A) :
  (forall y, In y l -> f x y = x) -> fold_left f l x = x.
Proof.
  induction l as [|y l IH]; intros Hf; [reflexivity |].
  simpl. rewrite (Hf y) by now left. apply IH. intros z Hz. apply Hf. now right.
Qed.

Lemma link_segments_linked_unchanged segs :
  linked segs ->
  (forall j s, (1 <= j)%nat -> segs !! j = Some s -> controls s <> []) ->
  link_segments segs = segs.
Proof.
  intros Hl Hne. unfold link_segments. apply fold_left_unchanged.
  intros j Hj. apply in_seq in Hj.
  apply link_step_linked; [lia | exact Hl | intros s; apply Hne; lia].
Qed.

(** The segments that the loop has written hold at least one control. *)
Lemma link_upto_written k segs j s :
  (k <= length segs - 1)%nat -> (1 <= j <= k)%nat ->
  link_upto k segs !! j = Some s -> controls s <> [].
Proof.
  revert j s. induction k as [|k IH]; intros j s Hk Hj Hs; [lia |].
  rewrite link_upto_S in Hs.
  pose proof (link_upto_length k segs) as Hlen.
  destruct (lookup_lt_is_Some_2 (link_upto k segs) k) as [prev Hp]; [lia |].
  destruct (lookup_lt_is_Some_2 (link_upto k segs) (S k)) as [cur Hc]; [lia |].
  rewrite (@link_step_inside _ _ _ _ Hp Hc) in Hs.
  destruct (decide (j = S k)) as [->|Hne].
  - rewrite list_lookup_insert_eq in Hs by lia. injection Hs as <-.
    apply set_first_nonempty.
  - rewrite list_lookup_insert_ne in Hs by lia.
    apply (IH j s); [lia | lia | exact Hs].
Qed.

(** Whatever the loop does to a segment, the controls after the first stay. *)
Lemma link_upto_tail k segs j s' :
  link_upto k segs !! j = Some s' ->
  exists s, segs !! j = Some s /\ tl (controls s') = tl (controls s).
Proof.
  revert j s'. induction k as [|k IH]; intros j s' Hs.
  - exists s'. split; [exact Hs | reflexivity].
  - rewrite link_upto_S in Hs. unfold link_step in Hs.
    destruct (link_upto k segs !! (S k - 1)) as [prev|]; [| now apply IH].
    destruct (link_upto k segs !! S k) as [cur|] eqn:Ec; [| now apply IH].
    destruct (decide (j = S k)) as [->|Hne].
    + rewrite list_lookup_insert_eq in Hs by (now apply lookup_lt_Some in Ec).
      injection Hs as <-. destruct (IH (S k) cur Ec) as [s [Hs Ht]].
      exists s. split; [exact Hs |]. now rewrite tl_set_first.
    + rewrite list_lookup_insert_ne in Hs by lia. now apply IH.
Qed.

(** X8. Linking is idempotent, and it leaves a path alone whose segments are
    linked already and hold at least one control each after the first
    segment: loading what was linked before changes no segment. *)
Theorem link_segments_idempotent segs :
  link_segments (link_segments segs) = link_segments segs /\
  (linked segs ->
   (forall j s, (1 <= j)%nat -> segs !! j = Some s -> controls s <> []) ->
   link_segments segs = segs).
Proof.
  split; [| apply link_segments_linked_unchanged].
  apply link_segments_linked_unchanged; [apply link_segments_linked |].
  intros j s Hj Hs. unfold link_segments in Hs.
  fold (link_upto (length segs - 1) segs) in Hs.
  apply lookup_lt_Some in Hs as Hlt. rewrite link_upto_length in Hlt.
  apply (@link_upto_written (length segs - 1) segs j s); [lia | lia | exact Hs].
Qed.

(** X9. Linking changes nothing but first controls: the number of segments
    stays, the first segment stays, every segment keeps all its controls
    after the first one, and a segment that had controls keeps their
    number, so a linear segment stays linear and a cubic one cubic. *)
Theorem link_segments_keeps_shape segs :
  length (link_segments segs) = length segs /\
  link_segments segs !! 0%nat = segs !! 0%nat /\
  (forall j s', link_segments segs !! j = Some s' ->
     exists s, segs !! j = Some s /\
               tl (controls s') = tl (controls s) /\
               (controls s <> [] -> length (controls s') = length (controls s))).
Proof.
  split; [apply link_upto_length | split; [apply link_segments_head |]].
  intros j s' Hs'.
  assert (Hs'' := Hs'). unfold link_segments in Hs''.
  fold (link_upto (length segs - 1) segs) in Hs''.
  destruct (link_upto_tail _ _ _ Hs'') as [s [Hs Ht]].
  exists s. split; [exact Hs | split; [exact Ht |]].
  intros Hne.
  assert (Hne' : controls s' <> []).
  { destruct j as [|i].
    - rewrite link_segments_head, Hs in Hs'. now injection Hs' as <-.
    - apply lookup_lt_Some in Hs as Hlt.
      apply (@link_upto_written (length segs - 1) segs (S i) s'); [lia | lia | exact Hs'']. }
  destruct (controls s') as [|x' r']; [contradiction |].
  destruct (controls s) as [|x r]; [contradiction |].
  simpl in Ht. simpl. now rewrite Ht.
Qed.

End LinkingMore.

Section LoadingFacts.

Variable Cmd : Type.
Variable sanitize : string -> string.
Variable createNewInstance : Format -> Format.
Variable convertGeneralConfigUOL : GeneralConfig -> UnitOfLength -> GeneralConfig.
Variable convertPathConfigPointDensity : PathConfig -> Q -> Q -> PathConfig.
Variable controlsOf : Path -> list addr.
Variable fromAtoB : UnitOfLength -> UnitOfLength -> Q -> Q.

Implicit Types (a : App Cmd) (fmt : Format) (pfd : PathFileData) (st : Store).

Lemma isInit_init fmt : isInit (init fmt) = true.
Proof. unfold init. destruct (isInit fmt) eqn:E; [exact E | reflexivity]. Qed.

(** X10. No loaded path has an empty name, whatever the sanitizer makes of
    the names in the file: a name that is sanitized away becomes "Path", and
    every other name is the sanitized one. *)
Theorem loaded_names_not_empty a fmt pfd :
  Forall (fun p => name p <> ""%string) (paths (setPathFileData sanitize a fmt pfd)) /\
  Forall2 (fun p p' =>
             name p' = (if String.eqb (sanitize (name p)) "" then "Path"%string
                        else sanitize (name p)) /\ uid p' = uid p)
          (pfd_paths pfd) (paths (setPathFileData sanitize a fmt pfd)).
Proof.
  rewrite setPathFileData_paths. split.
  - apply Forall_forall. intros p Hp. apply in_map_iff in Hp.
    destruct Hp as [q [<- _]]. simpl.
    destruct (String.eqb_spec (sanitize (name q)) ""); [discriminate | assumption].
  - induction (pfd_paths pfd) as [|p l IH]; simpl; constructor; auto.
Qed.

(** X11. A load resets what the user had set up: afterwards the format is
    the loaded one, the unit in use is the unit of its config, nothing is
    selected, no path is remembered as the last interesting one, the magnet
    is off, the robot marker is hidden and the field display is back at
    offset (0, 0) and scale 1.  No path is expanded either, although the
    loop pushes the uid of every loaded path onto [expanded]:
    [resetUserControl] empties it again. *)
Theorem load_resets_user_control a fmt pfd :
  let a' := setPathFileData sanitize a fmt pfd in
  format a' = fmt /\ usingUOL a' = uol (gc fmt) /\
  length (paths a') = length (pfd_paths pfd) /\
  expanded a' = [] /\ selected a' = [] /\ lastInterestedPath a' = None /\
  magnet a' = None /\ robotVisible a' = false /\
  fieldDisplay a' = mkFieldDisplay (mkVector 0 0) 1.
Proof.
  cbv zeta. rewrite setPathFileData_paths, length_map. repeat split.
Qed.

(** X12. Loading a file and making a new file do not run the format
    conversion: with the format initialised by the caller, as
    [importPathFileData], [importPathFile] and [newPathFile] do before they
    assign it, the format reaction leaves the application as it is. *)
Theorem format_reaction_suspended a fmt pfd (oldFormat : Format) :
  formatReaction convertGeneralConfigUOL convertPathConfigPointDensity
    (setPathFileData sanitize a (init fmt) pfd) oldFormat
  = setPathFileData sanitize a (init fmt) pfd /\
  formatReaction convertGeneralConfigUOL convertPathConfigPointDensity
    (newPathFile createNewInstance a) oldFormat
  = newPathFile createNewInstance a.
Proof.
  split; unfold formatReaction.
  - change (format (setPathFileData sanitize a (init fmt) pfd)) with (init fmt).
    now rewrite isInit_init.
  - change (format (newPathFile createNewInstance a))
      with (init (createNewInstance (format a))).
    now rewrite isInit_init.
Qed.

(** X13. The format reaction changes the path configs only: the paths of
    the application after the reaction are the paths it held when the
    reaction ran, the same in number and order, each with its uid, name,
    segments, visibility and lock; and when the new format is not yet
    initialised, the reaction empties the selection and the expanded paths
    and leaves the format initialised. *)
Theorem format_reaction_keeps_geometry a (oldFormat : Format) :
  let a' := formatReaction convertGeneralConfigUOL convertPathConfigPointDensity
              a oldFormat in
  Forall2 (fun p p' =>
             uid p' = uid p /\ name p' = name p /\ segments p' = segments p /\
             visible p' = visible p /\ lock p' = lock p)
          (paths a) (paths a') /\
  (isInit (format a) = false ->
   selected a' = [] /\ expanded a' = [] /\ isInit (format a') = true).
Proof.
  simpl. unfold formatReaction.
  destruct (isInit (format a)) eqn:Hinit.
  - split; [| discriminate].
    induction (paths a) as [|p l IH]; constructor; auto.
  - simpl. split; [| intros _; unfold init; rewrite Hinit; auto].
    induction (paths a) as [|p l IH]; simpl; constructor; auto.
Qed.

Lemma uolReaction_usingUOL a st (newUOL oldUOL : UnitOfLength) :
  Qeq_bool (usingUOL (fst (uolReaction controlsOf fromAtoB a st newUOL oldUOL))) newUOL
  = true.
Proof.
  unfold uolReaction. destruct (Qeq_bool (usingUOL a) newUOL) eqn:E; cbn [fst usingUOL].
  - exact E.
  - apply Qeq_bool_refl.
Qed.

(** X14. The reaction on the unit of length converts nothing after a load
    or a new file, where [usingUOL] is set to the unit of the format; and
    once it has run for a unit, running it again for that unit converts
    nothing, so no control is converted twice. *)
Theorem unit_reaction_runs_once a st fmt pfd (newUOL oldUOL oldUOL' : UnitOfLength) :
  uolReaction controlsOf fromAtoB (setPathFileData sanitize a fmt pfd) st
              (uol (gc fmt)) oldUOL
  = (setPathFileData sanitize a fmt pfd, st) /\
  uolReaction controlsOf fromAtoB (newPathFile createNewInstance a) st
              (uol (gc (format (newPathFile createNewInstance a)))) oldUOL
  = (newPathFile createNewInstance a, st) /\
  (let r := uolReaction controlsOf fromAtoB a st newUOL oldUOL in
   uolReaction controlsOf fromAtoB (fst r) (snd r) newUOL oldUOL' = r).
Proof.
  split; [| split].
  - unfold uolReaction.
    change (usingUOL (setPathFileData sanitize a fmt pfd)) with (uol (gc fmt)).
    now rewrite Qeq_bool_refl.
  - unfold uolReaction.
    change (usingUOL (newPathFile createNewInstance a))
      with (uol (gc (format (newPathFile createNewInstance a)))).
    now rewrite Qeq_bool_refl.
  - cbv zeta. pose proof (uolReaction_usingUOL a st newUOL oldUOL) as Hu.
    destruct (uolReaction controlsOf fromAtoB a st newUOL oldUOL) as [a1 st1].
    cbn [fst snd] in *. unfold uolReaction. now rewrite Hu.
Qed.

Lemma convertControl_frame (oldUOL newUOL : UnitOfLength) st (r r' : addr) :
  r' <> r ->
  convertControl fromAtoB oldUOL newUOL st r !! r' = st !! r'.
Proof.
  intros Hne. unfold convertControl.
  destruct (st !! r); [| reflexivity]. apply lookup_insert_ne. congruence.
Qed.

Lemma convertControl_uid (oldUOL newUOL : UnitOfLength) st (r r' : addr) :
  cuid <$> (convertControl fromAtoB oldUOL newUOL st r !! r') = cuid <$> (st !! r').
Proof.
  unfold convertControl. destruct (st !! r) as [c|] eqn:E; [| reflexivity].
  destruct (decide (r = r')) as [<-|Hne].
  - rewrite E. unfold Store, addr in *. now rewrite lookup_insert_eq.
  - f_equal. now apply lookup_insert_ne.
Qed.

Lemma convert_all_frame (oldUOL newUOL : UnitOfLength) (rs : list addr) st (r' : addr) :
  ~ In r' rs ->
  fold_left (convertControl fromAtoB oldUOL newUOL) rs st !! r' = st !! r'.
Proof.
  revert st. induction rs as [|r rs IH]; intros st Hn; [reflexivity |].
  simpl. rewrite IH by (intros H; apply Hn; now right).
  apply convertControl_frame. intros ->. apply Hn. now left.
Qed.

Lemma convert_all_uid (oldUOL newUOL : UnitOfLength) (rs : list addr) st (r' : addr) :
  cuid <$> (fold_left (convertControl fromAtoB oldUOL newUOL) rs st !! r')
  = cuid <$> (st !! r').
Proof.
  revert st. induction rs as [|r rs IH]; intros st; [reflexivity |].
  simpl. rewrite IH. apply convertControl_uid.
Qed.

(** X15. The reaction on the unit of length touches the coordinates of the
    controls of the paths and nothing else: a control that no path lists,
    such as the robot marker, keeps its contents, no control object appears
    or disappears, every control keeps its uid, and the paths, the format,
    the selection and the history stay as they are. *)
Theorem unit_reaction_frame a st (newUOL oldUOL : UnitOfLength) (r : addr) :
  let res := uolReaction controlsOf fromAtoB a st newUOL oldUOL in
  ((forall p, In p (paths a) -> ~ In r (controlsOf p)) -> snd res !! r = st !! r) /\
  cuid <$> (snd res !! r) = cuid <$> (st !! r) /\
  paths (fst res) = paths a /\ format (fst res) = format a /\
  selected (fst res) = selected a /\ history (fst res) = history a.
Proof.
  cbv zeta. unfold uolReaction.
  destruct (Qeq_bool (usingUOL a) newUOL); cbn [fst snd]; [auto 10 |].
  split; [| split; [| auto]].
  - generalize st. induction (paths a) as [|p ps IH]; intros st0 Hn; [reflexivity |].
    simpl. rewrite IH by (intros q Hq; apply Hn; now right).
    apply convert_all_frame. apply Hn. now left.
  - generalize st. induction (paths a) as [|p ps IH]; intros st0; [reflexivity |].
    simpl. rewrite IH. apply convert_all_uid.
Qed.

End LoadingFacts.

End Loading.

(** ** The data line of a path file ([MainApp.importPathFile], the export of
    the format and the code output of the configuration panel)

    The format ends its export with the line ["#PATH.JERRYIO-DATA " + json];
    [importPathFile] looks for that line, and the configuration panel cuts
    the export at the marker. *)

From Stdlib Require Import Ascii.

Module PathFile.

Local Open Scope string_scope.

Local Arguments String.append !_ _ / : simpl nomatch.

Definition marker : string := "#PATH.JERRYIO-DATA".

Definition newline : ascii := "010"%char.

Definition hash : ascii := "#"%char.

(** [String.prototype.split("\n")]: the pieces between the line feeds; a
    string without line feed is one piece. *)
Fixpoint split_lines (s : string) : list string :=
  match s with
  | EmptyString => [EmptyString]
  | String c s' =>
      if Ascii.eqb c newline then EmptyString :: split_lines s'
      else
        match split_lines s' with
        | l :: ls => String c l :: ls
        | [] => [String c EmptyString]
        end
  end.

(** [s.substring(n)]: [s] without its first [n] characters. *)
Fixpoint drop (n : nat) (s : string) : string :=
  match n, s with
  | O, _ => s
  | S n', String _ s' => drop n' s'
  | S _, EmptyString => EmptyString
  end.

Fixpoint contains_char (c : ascii) (s : string) : bool :=
  match s with
  | EmptyString => false
  | String d s' => Ascii.eqb d c || contains_char c s'
  end.

(** A line with the line feed that ends it. *)
Definition terminated (l : string) : string := l ++ String newline EmptyString.

Fixpoint unlines (ls : list string) : string :=
  match ls with
  | [] => EmptyString
  | l :: ls' => terminated l ++ unlines ls'
  end.

Section DataLine.

(** [String.prototype.trim]. *)
Variable trim : string -> string.

(** The search of [importPathFile]: the first line that starts with the
    marker, without the marker and trimmed; [None] when there is no such
    line and the file has to be recovered by the format. *)
Definition findData (fileContent : string) : option string :=
  match find (String.prefix marker) (split_lines fileContent) with
  | Some line => Some (trim (drop (String.length marker) line))
  | None => None
  end.

End DataLine.

(** The code output of the configuration panel: the export up to the first
    occurrence of the marker, or all of it when the marker does not occur. *)
Definition codeOutput (exported : string) : string :=
  match String.index 0 marker exported with
  | Some i => String.substring 0 i exported
  | None => exported
  end.

Example findData_skips_inline_marker :
  findData (fun s => s)
    ("x = 1; #PATH.JERRYIO-DATA {}" ++ String newline "rotateTo(90);") = None /\
  codeOutput ("x = 1; #PATH.JERRYIO-DATA {}" ++ String newline "rotateTo(90);")
  = "x = 1; ".
Proof. split; reflexivity. Qed.

Example split_lines_trailing :
  split_lines ("a" ++ String newline ("b" ++ String newline "")) = ["a"; "b"; ""].
Proof. reflexivity. Qed.

Lemma append_assoc (a b c : string) : (a ++ b) ++ c = a ++ (b ++ c).
Proof. induction a as [|x a IH]; simpl; [reflexivity | now rewrite IH]. Qed.

Lemma split_lines_not_nil (s : string) : split_lines s <> [].
Proof.
  induction s as [|c s IH]; simpl; [discriminate |].
  destruct (Ascii.eqb c newline); [discriminate |].
  destruct (split_lines s); discriminate.
Qed.

Lemma split_lines_single (s : string) :
  contains_char newline s = false -> split_lines s = [s].
Proof.
  induction s as [|c s IH]; simpl; [reflexivity |].
  intros H. apply orb_false_iff in H. destruct H as [Hc Hs].
  rewrite Hc, (IH Hs). reflexivity.
Qed.

Lemma split_lines_terminated (l rest : string) :
  contains_char newline l = false ->
  split_lines (terminated l ++ rest) = l :: split_lines rest.
Proof.
  unfold terminated. induction l as [|c l IH]; simpl; intros H.
  - reflexivity.
  - apply orb_false_iff in H. destruct H as [Hc Hl].
    rewrite Hc, (IH Hl). reflexivity.
Qed.

Lemma split_lines_unlines (ls : list string) (tail : string) :
  Forall (fun l => contains_char newline l = false) ls ->
  contains_char newline tail = false ->
  split_lines (unlines ls ++ tail) = (ls ++ [tail])%list.
Proof.
  intros Hls Ht. induction Hls as [|l ls Hl _ IH]; cbn [unlines].
  - now apply split_lines_single.
  - rewrite append_assoc, split_lines_terminated by exact Hl. now rewrite IH.
Qed.

Lemma find_after_rejected {A : Type} (f : A -> bool) (ls : list A) (x : A) :
  Forall (fun l => f l = false) ls -> f x = true ->
  find f (ls ++ [x])%list = Some x.
Proof.
  intros Hls Hx. induction Hls as [|l ls Hl _ IH]; simpl.
  - now rewrite Hx.
  - now rewrite Hl.
Qed.

Lemma contains_char_append (c : ascii) (a b : string) :
  contains_char c (a ++ b) = contains_char c a || contains_char c b.
Proof.
  induction a as [|x a IH]; simpl; [reflexivity |]. now rewrite IH, orb_assoc.
Qed.

(** X16. The data line that the export appends is found again by the
    import: when the exported text consists of complete lines, none of them
    starting with the marker, followed by the marker, a space and a JSON
    text without line feed, the search of [importPathFile] gives that JSON
    text with the space before it, trimmed. *)
Theorem findData_finds_exported_line (trim : string -> string)
        (body : list string) (json : string) :
  Forall (fun l => contains_char newline l = false) body ->
  Forall (fun l => String.prefix marker l = false) body ->
  contains_char newline json = false ->
  findData trim (unlines body ++ marker ++ " " ++ json) = Some (trim (" " ++ json)).
Proof.
  intros Hnl Hpre Hjson. unfold findData.
  rewrite split_lines_unlines; [| exact Hnl |].
  - rewrite (@find_after_rejected _ (String.prefix marker) body (marker ++ " " ++ json));
      [reflexivity | exact Hpre | reflexivity].
  - rewrite !contains_char_append, Hjson. reflexivity.
Qed.

Lemma findData_finds_exported_line_witness :
  findData (fun s => s)
    (unlines ["robot = point(0,0);"; "rotateTo(90);"] ++ marker ++ " " ++ "{}")
  = Some " {}".
Proof.
  apply (@findData_finds_exported_line (fun s => s)
           ["robot = point(0,0);"; "rotateTo(90);"] "{}").
  - repeat constructor.
  - repeat constructor.
  - reflexivity.
Defined.

Lemma prefix_marker_other (c : ascii) (s : string) :
  Ascii.eqb c hash = false -> String.prefix marker (String c s) = false.
Proof.
  intros Hc. unfold marker. cbn [String.prefix].
  destruct (ascii_dec "#" c) as [E|_]; [| reflexivity].
  subst c. discriminate Hc.
Qed.

Lemma substring_append (a b : string) :
  String.substring 0 (String.length a) (a ++ b) = a.
Proof.
  induction a as [|c a IH]; simpl.
  - destruct b; reflexivity.
  - now rewrite IH.
Qed.

Lemma index_marker_here (rest : string) :
  String.index 0 marker (marker ++ rest) = Some 0%nat.
Proof.
  assert (P : String.prefix marker (marker ++ rest) = true)
    by (apply prefix_correct, substring_append).
  unfold marker in *. simpl append in *. cbn [String.index]. now rewrite P.
Qed.

Lemma index_marker_after (body rest : string) :
  contains_char hash body = false ->
  String.index 0 marker (body ++ marker ++ rest) = Some (String.length body).
Proof.
  induction body as [|c body IH]; intros H.
  - apply index_marker_here.
  - simpl in H. apply orb_false_iff in H. destruct H as [Hc Hb].
    change (String c body ++ marker ++ rest) with (String c (body ++ marker ++ rest)).
    cbn [String.index String.length].
    rewrite (@prefix_marker_other c _ Hc), (IH Hb). reflexivity.
Qed.

Lemma index_marker_none (s : string) :
  contains_char hash s = false -> String.index 0 marker s = None.
Proof.
  induction s as [|c s IH]; intros H.
  - reflexivity.
  - simpl in H. apply orb_false_iff in H. destruct H as [Hc Hs].
    cbn [String.index]. rewrite (@prefix_marker_other c _ Hc), (IH Hs). reflexivity.
Qed.

(** X17. The code output of the configuration panel is the generated code
    without the data: when the code before the marker has no [#] in it, the
    panel shows exactly that code, whatever follows the marker; and an
    export without any [#] is shown whole. *)
Theorem codeOutput_drops_data (code rest : string) :
  contains_char hash code = false ->
  codeOutput (code ++ marker ++ rest) = code /\ codeOutput code = code.
Proof.
  intros H. unfold codeOutput. split.
  - rewrite (@index_marker_after code rest H). apply substring_append.
  - now rewrite (@index_marker_none code H).
Qed.

Lemma codeOutput_drops_data_witness :
  codeOutput ("rotateTo(90);" ++ marker ++ " {}") = "rotateTo(90);".
Proof.
  exact (proj1 (@codeOutput_drops_data "rotateTo(90);" " {}" eq_refl)).
Defined.

End PathFile.
